(** * MarkLogic_Python: the database configuration document

    A shallow embedding of [marklogic/models/database/__init__.py]: the
    polymorphic [Database.unmarshal] / [Database.marshal] pair, the slot
    getters and the field mutators, together with the Python data they
    work on (JSON-like wire values, dictionaries in insertion order,
    entity objects carrying a [_config] dictionary, exceptions). *)

From Stdlib Require Import String List ZArith Bool Lia Ascii.
Import ListNotations.
Local Open Scope string_scope.
Local Open Scope list_scope.
Set Warnings "-register-all".

(** ** Python values *)

(** The entity classes and factory methods that [Database.unmarshal] calls.
    Each object remembers which of them built it. *)
Inductive ctor : Type :=
| ElementRangeIndex | FieldRangeIndex | AttributeRangeIndex | PathRangeIndex
| GeospatialElementIndex | GeospatialPathIndex | GeospatialElementChildIndex
| GeospatialElementPairIndex | GeospatialElementAttributePairIndex
| FragmentRoot | FragmentParent
| MergeBlackout_recurringAllDay | MergeBlackout_recurringDuration
| MergeBlackout_recurringStartEnd | MergeBlackout_oneTimeStartEnd
| MergeBlackout_oneTimeDuration
| ScheduledDatabaseBackup_minutely | ScheduledDatabaseBackup_hourly
| ScheduledDatabaseBackup_daily | ScheduledDatabaseBackup_weekly
| ScheduledDatabaseBackup_monthly | ScheduledDatabaseBackup_once
| PathNamespace | ElementWordLexicon | AttributeWordLexicon
| ElementWordQueryThrough | PhraseThrough | PhraseAround | RuleSet
| FieldPath | PathField | WordQuery | RootField.

(** A Python value as the module handles it: what [json.loads] produces
    ([None], booleans, numbers, strings, lists, dictionaries in insertion
    order) and the entity objects, each with the constructor that built it,
    the arguments it was given and the current state of its [_config].
    Numbers are never computed with here, so integers stand for them. *)
Inductive pyval : Type :=
| PNone
| PBool (b : bool)
| PInt (n : Z)
| PStr (s : string)
| PList (l : list pyval)
| PDict (d : list (string * pyval))
| PObj (c : ctor) (args : list pyval) (config : list (string * pyval)).

Definition dict := list (string * pyval).

(** The exceptions that can leave the modelled code.  [TypeMismatch] and
    [DuplicateKey] are the names the specification gives to the errors of
    the property-list helpers. *)
Inductive exn : Type :=
| KeyError (key : string)
| TypeError
| AttributeError
| NameError (name : string)
| UnexpectedManagementAPIResponse (msg : string)
| ValidationError (msg : string)
| TypeMismatch
| DuplicateKey.

Inductive result (A : Type) : Type :=
| Ok (a : A)
| Raise (e : exn).
Arguments Ok {A} a.
Arguments Raise {A} e.

Definition rbind {A B} (m : result A) (f : A -> result B) : result B :=
  match m with
  | Ok a => f a
  | Raise e => Raise e
  end.

Declare Scope py_scope.
Delimit Scope py_scope with py.
Notation "x <- m ;; k" := (rbind m (fun x => k))
  (at level 61, m at next level, right associativity) : py_scope.
Local Open Scope py_scope.

(** A [for] loop that appends one computed element per item. *)
Fixpoint mapR {A B} (f : A -> result B) (l : list A) : result (list B) :=
  match l with
  | [] => Ok []
  | x :: xs => y <- f x ;; ys <- mapR f xs ;; Ok (y :: ys)
  end.

(** ** Dictionaries *)

Module Dict.

(** [d[k]], when present. *)
Fixpoint get (k : string) (d : dict) : option pyval :=
  match d with
  | [] => None
  | (k', v) :: d' => if String.eqb k k' then Some v else get k d'
  end.

(** [k in d]. *)
Definition mem (k : string) (d : dict) : bool :=
  match get k d with Some _ => true | None => false end.

(** [d[k] = v]: an existing key keeps its position, a new one goes last. *)
Fixpoint set (k : string) (v : pyval) (d : dict) : dict :=
  match d with
  | [] => [(k, v)]
  | (k', v') :: d' =>
      if String.eqb k k' then (k, v) :: d' else (k', v') :: set k v d'
  end.

Definition keys (d : dict) : list string := map fst d.

End Dict.

(** ** Operators on values *)

(** [v == s] for a string literal [s]. *)
Definition str_eq (v : pyval) (s : string) : bool :=
  match v with
  | PStr s' => String.eqb s' s
  | _ => false
  end.

(** [v is None]. *)
Definition is_None (v : pyval) : bool :=
  match v with
  | PNone => true
  | _ => false
  end.

(** [v[k]] for a string key: only a dictionary can be subscripted so. *)
Definition getitem (v : pyval) (k : string) : result pyval :=
  match v with
  | PDict d =>
      match Dict.get k d with
      | Some x => Ok x
      | None => Raise (KeyError k)
      end
  | _ => Raise TypeError
  end.

Notation "v .[ k ]" := (getitem v k) (at level 1, format "v .[ k ]") : py_scope.

(** [k in v] for a string literal [k]: key membership in a dictionary,
    substring test in a string, element test in a list; anything else is
    not iterable. *)
Definition contains (k : string) (v : pyval) : result bool :=
  match v with
  | PDict d => Ok (Dict.mem k d)
  | PStr s => Ok (match String.index 0 k s with Some _ => true | None => false end)
  | PList l => Ok (existsb (fun x => str_eq x k) l)
  | _ => Raise TypeError
  end.

Fixpoint chars (s : string) : list pyval :=
  match s with
  | EmptyString => []
  | String a s' => PStr (String a EmptyString) :: chars s'
  end.

(** [for x in v]: the items the loop visits. *)
Definition iter (v : pyval) : result (list pyval) :=
  match v with
  | PList l => Ok l
  | PDict d => Ok (map (fun kv => PStr (fst kv)) d)
  | PStr s => Ok (chars s)
  | _ => Raise TypeError
  end.

(** [v[k1], v[k2], ...] evaluated left to right, as in an argument list. *)
Definition getitems (v : pyval) (ks : list string) : result (list pyval) :=
  mapR (getitem v) ks.

(** ** The heap of dictionaries

    [Database.unmarshal] keeps the dictionary it is given: the caller and
    the new [Database] hold the same object.  Dictionaries that are held
    by reference therefore live in a heap, and a [Database] stores the
    address of its [_config]. *)

Definition ref := nat.

Record heap : Type := { next : ref; cell : ref -> dict }.

Record Database : Type := {
  name : pyval;
  etag : pyval;
  hostname : pyval;
  _config : ref
}.

(** Code that reads and writes the heap and may raise; the heap reached
    when an exception leaves is the heap the caller goes on with. *)
Definition M (A : Type) : Type := heap -> result A * heap.

Definition mret {A} (a : A) : M A := fun h => (Ok a, h).

Definition mbind {A B} (m : M A) (f : A -> M B) : M B :=
  fun h =>
    match m h with
    | (Ok a, h') => f a h'
    | (Raise e, h') => (Raise e, h')
    end.

Definition lift {A} (r : result A) : M A := fun h => (r, h).

Notation "x <~ m ;; k" := (mbind m (fun x => k))
  (at level 61, m at next level, right associativity) : py_scope.

Definition alloc (d : dict) : M ref :=
  fun h => (Ok (next h),
            {| next := S (next h);
               cell := fun r => if Nat.eqb r (next h) then d else cell h r |}).

Definition load (r : ref) : M dict := fun h => (Ok (cell h r), h).

Definition store (r : ref) (d : dict) : M unit :=
  fun h => (Ok tt,
            {| next := next h;
               cell := fun r' => if Nat.eqb r' r then d else cell h r' |}).

(** [k in self._config], [self._config[k]] and [self._config[k] = v]. *)
Definition config_contains (self : Database) (k : string) : M bool :=
  d <~ load (_config self) ;; mret (Dict.mem k d).

Definition config_getitem (self : Database) (k : string) : M pyval :=
  d <~ load (_config self) ;; lift (PDict d).[k].

Definition config_setitem (self : Database) (k : string) (v : pyval) : M unit :=
  d <~ load (_config self) ;; store (_config self) (Dict.set k v d).

(** [Database.__init__] (lines 71-93). *)
Definition Database_init (nm hostnm : string) : M Database :=
  r <~ alloc [ ("database-name", PStr nm);
               ("forest", PList [PStr (nm ++ "-Forest-001")]);
               ("security-database", PStr "Security");
               ("schema-database", PStr "Schemas");
               ("enabled", PBool true);
               ("language", PStr "en") ] ;;
  mret {| name := PStr nm; etag := PNone; hostname := PStr hostnm; _config := r |}.

(** [o._config]. *)
Definition get_config (o : pyval) : result pyval :=
  match o with
  | PObj _ _ config => Ok (PDict config)
  | _ => Raise AttributeError
  end.

(** [o._config[k] = v]. *)
Definition set_config_item (o : pyval) (k : string) (v : pyval) : result pyval :=
  match o with
  | PObj c args config => Ok (PObj c args (Dict.set k v config))
  | _ => Raise AttributeError
  end.

Definition is_object (v : pyval) : bool :=
  match v with
  | PObj _ _ _ => true
  | _ => false
  end.

Definition class_of (v : pyval) : option ctor :=
  match v with
  | PObj c _ _ => Some c
  | _ => None
  end.

(** The classes [isinstance(x, Field)] and [isinstance(x, WordQuery)]
    accept: the field module has the base class [Field] with the three
    kinds of field below it. *)
Definition Field (c : ctor) : bool :=
  match c with
  | PathField | WordQuery | RootField => true
  | _ => false
  end.

Definition WordQuery_class (c : ctor) : bool :=
  match c with
  | WordQuery => true
  | _ => false
  end.

(** Modelled from the spec: [assert_type] of the validators module, which
    is not part of the sources at hand.  The value is handed back when its
    runtime type is a subtype of the expected one, and the call fails with
    [TypeMismatch] otherwise. *)
Definition assert_type (value : pyval) (expected : ctor -> bool) : result pyval :=
  match value with
  | PObj c _ _ => if expected c then Ok value else Raise TypeMismatch
  | _ => Raise TypeMismatch
  end.

(** Equality of natural keys (names, identifiers): scalars compare by
    value, and nothing else is taken for a key. *)
Definition key_eqb (a b : pyval) : bool :=
  match a, b with
  | PBool x, PBool y => Bool.eqb x y
  | PInt x, PInt y => Z.eqb x y
  | PStr x, PStr y => String.eqb x y
  | _, _ => false
  end.

(** Membership in a list that is written out. *)
Ltac in_list := simpl; repeat (first [left; reflexivity | right]).

(** A key that is not in a list that is written out. *)
Ltac not_in_list :=
  simpl; let H := fresh "H" in
  intros H; repeat (destruct H as [H|H]; [discriminate H|]); exact H.

(** A step [x <- m ;; k] that ended well: [m] gave a value. *)
Ltac bind_ok H :=
  match type of H with
  | rbind ?m _ = Ok _ =>
      let E := fresh "E" in
      destruct m eqn:E; simpl in H; [|discriminate H]
  end.

(** The keys of the array-valued slots, in the order [Database.unmarshal]
    goes through them. *)
Definition slot_keys : list string :=
  [ "range-element-index"; "range-field-index";
    "range-element-attribute-index"; "range-path-index";
    "geospatial-element-index"; "geospatial-path-index";
    "geospatial-element-child-index"; "geospatial-element-pair-index";
    "geospatial-element-attribute-pair-index";
    "fragment-root"; "fragment-parent"; "merge-blackout"; "database-backup";
    "path-namespace"; "element-word-lexicon"; "element-attribute-word-lexicon";
    "element-word-query-through"; "phrase-through"; "phrase-around";
    "default-ruleset"; "field" ].

(** A heap holding the given dictionaries at the addresses 0, 1, ... *)
Definition heap_of (l : list dict) : heap :=
  {| next := length l; cell := fun r => nth r l [] |}.

(** ** Walking a directory ([utilities/files.py])

    The file system the walk reads: what [os.listdir] gives for a
    directory, in its order, and what [os.stat] finds at each name. *)
Module Files.

Inductive node : Type :=
| File
| Directory (entries : list (string * node))
| Unreadable.

(** [os.path.join(a, b)] with POSIX paths. *)
Definition join (a b : string) : string :=
  if String.prefix "/" b then b
  else if String.eqb a "" then b
  else if String.eqb (String.substring (String.length a - 1) 1 a) "/"
       then a ++ b
       else a ++ "/" ++ b.

(** The entry added for a name that is not a directory. *)
Definition entry (dir pathname : string) : pyval :=
  PDict [ ("filename", PStr dir); ("partial-directory", PStr pathname) ].

(** The body of the loop of [walk_directories] for the name [dir] found
    in a directory, [pathname] being its joined path: a directory is
    walked in turn, anything else is listed; [None] is an [OSError] of
    [os.stat] leaving the call. *)
Fixpoint walk (pathname dir : string) (n : node) : option (list pyval) :=
  match n with
  | File => Some [entry dir pathname]
  | Unreadable => None
  | Directory entries =>
      (fix loop (es : list (string * node)) : option (list pyval) :=
         match es with
         | [] => Some []
         | (name, child) :: rest =>
             match walk (join pathname name) name child with
             | None => None
             | Some found =>
                 match loop rest with
                 | None => None
                 | Some more => Some (found ++ more)
                 end
             end
         end) entries
  end.

(** [walk_directories(current_directory)], the directory holding
    [entries]. *)
Definition walk_directories (current_directory : string)
    (entries : list (string * node)) : option (list pyval) :=
  walk current_directory "" (Directory entries).

(** The files below a node, and whether [os.stat] fails somewhere. *)
Fixpoint files (n : node) : nat :=
  match n with
  | File => 1
  | Unreadable => 0
  | Directory entries =>
      (fix sum (es : list (string * node)) : nat :=
         match es with
         | [] => 0
         | (_, child) :: rest => files child + sum rest
         end) entries
  end.

Fixpoint readable (n : node) : bool :=
  match n with
  | File => true
  | Unreadable => false
  | Directory entries =>
      (fix all (es : list (string * node)) : bool :=
         match es with
         | [] => true
         | (_, child) :: rest => readable child && all rest
         end) entries
  end.

(** Names as [os.listdir] gives them: not empty, without a slash. *)
Definition plain_name (name : string) : bool :=
  negb (String.eqb name "") &&
  match String.index 0 "/" name with Some _ => false | None => true end.

Fixpoint plain_names (n : node) : bool :=
  match n with
  | File | Unreadable => true
  | Directory entries =>
      (fix all (es : list (string * node)) : bool :=
         match es with
         | [] => true
         | (name, child) :: rest =>
             plain_name name && plain_names child && all rest
         end) entries
  end.

(** A directory with two files and a subdirectory. *)
Definition sample : list (string * node) :=
  [ ("a.json", File);
    ("sub", Directory [ ("b.json", File); ("empty", Directory []) ]);
    ("c.xml", File) ].

End Files.

(** ** Sample entity classes and wire documents

    One way the classes imported by the module may behave, and the inputs
    on which the statements below are tried. *)
Module Sample.

(** A constructor that keeps its arguments. *)
Definition construct (c : ctor) (args : list pyval) : result dict :=
  Ok [("args", PList args)].

(** A [Field.unmarshal] that leaves the object as it is. *)
Definition Field_unmarshal (temp field : pyval) : result dict :=
  match temp with
  | PObj _ _ config => Ok config
  | _ => Raise AttributeError
  end.

Definition Field_marshal (field : pyval) : result pyval := get_config field.

(** A [field_name] that gives None for the word query, as the tests
    [field_name() is None] of the module expect. *)
Definition field_name (field : pyval) : result pyval :=
  match field with
  | PObj WordQuery _ _ => Ok PNone
  | PObj PathField (nm :: _) _ | PObj RootField (nm :: _) _ => Ok nm
  | _ => Raise AttributeError
  end.

(** A [field_name] that gives the stored name, the empty string for the
    word query, as the test of [set_word_query] expects. *)
Definition field_name_raw (field : pyval) : result pyval :=
  match field with
  | PObj WordQuery _ _ => Ok (PStr "")
  | PObj PathField (nm :: _) _ | PObj RootField (nm :: _) _ => Ok nm
  | _ => Raise AttributeError
  end.

Definition all_day : pyval :=
  PDict [ ("blackout-type", PStr "recurring"); ("period", PNone);
          ("merge-priority", PStr "normal"); ("limit", PInt 2);
          ("day", PList [PStr "monday"]) ].

Definition duration : pyval :=
  PDict [ ("blackout-type", PStr "recurring");
          ("period", PDict [ ("duration", PStr "P1H");
                             ("start-time", PStr "08:00:00") ]);
          ("merge-priority", PStr "normal"); ("limit", PInt 2);
          ("day", PList [PStr "monday"]) ].

Definition duration_and_end : pyval :=
  PDict [ ("blackout-type", PStr "recurring");
          ("period", PDict [ ("end-time", PStr "09:00:00");
                             ("duration", PStr "P1H");
                             ("start-time", PStr "08:00:00") ]);
          ("merge-priority", PStr "normal"); ("limit", PInt 2);
          ("day", PList [PStr "monday"]) ].

Definition once_null : pyval :=
  PDict [ ("blackout-type", PStr "once"); ("period", PNone);
          ("merge-priority", PStr "normal"); ("limit", PInt 2) ].

Definition weekly_blackout : pyval :=
  PDict [ ("blackout-type", PStr "weekly") ].

Definition fragment_root : pyval :=
  PDict [ ("namespace-uri", PStr "http://example.com/"); ("localname", PStr "doc") ].

Definition root_field : pyval :=
  PDict [ ("field-name", PStr "title"); ("include-root", PStr "true") ].

Definition path_field : pyval :=
  PDict [ ("field-name", PStr "");
          ("field-path", PList [ PDict [ ("path", PStr "/a/b"); ("weight", PInt 1) ] ]) ].

Definition word_query_field : pyval :=
  PDict [ ("field-name", PStr ""); ("include-root", PStr "false") ].

(** A document with nothing but its name. *)
Definition bare_doc : dict := [ ("database-name", PStr "Documents") ].

(** A document that decodes. *)
Definition good_doc : dict :=
  [ ("database-name", PStr "Documents");
    ("enabled", PBool true);
    ("fragment-root", PList [fragment_root]);
    ("merge-blackout", PList [all_day; duration]);
    ("field", PList [word_query_field; root_field; path_field]) ].

(** A document whose merge blackout has an unknown tag. *)
Definition bad_tag_doc : dict :=
  [ ("database-name", PStr "Documents");
    ("fragment-root", PList [fragment_root]);
    ("merge-blackout", PList [weekly_blackout]) ].

(** A document with a one-time blackout whose period is null. *)
Definition once_null_doc : dict :=
  [ ("database-name", PStr "Documents");
    ("merge-blackout", PList [once_null]) ].

(** A Database whose configuration is the dictionary at address 0. *)
Definition db : Database :=
  {| name := PStr "Documents"; etag := PNone;
     hostname := PStr "$ML-LOCALHOST"; _config := 0 |}.

(** Two field objects with one name. *)
Definition title_root : pyval := PObj RootField [PStr "title"; PBool true] [].

Definition title_path : pyval := PObj PathField [PStr "title"; PList []] [].

(** A document without its name. *)
Definition nameless_doc : dict := [ ("enabled", PBool true) ].

(** A one-time blackout whose period has both keys. *)
Definition once_both : pyval :=
  PDict [ ("blackout-type", PStr "once");
          ("period", PDict [ ("start-date", PStr "2015-03-01");
                             ("start-time", PStr "08:00:00");
                             ("duration", PStr "P1H");
                             ("end-date", PStr "2015-03-02");
                             ("end-time", PStr "09:00:00") ]);
          ("merge-priority", PStr "normal"); ("limit", PInt 2) ].

(** A recurring blackout whose period has neither key. *)
Definition shapeless : pyval :=
  PDict [ ("blackout-type", PStr "recurring"); ("period", PDict []) ].

(** A daily backup, and a record with a tag of no kind. *)
Definition daily_backup : dict :=
  [ ("backup-id", PStr "1234"); ("backup-type", PStr "daily");
    ("backup-directory", PStr "/backups"); ("backup-period", PInt 1);
    ("backup-start-time", PStr "02:00:00"); ("max-backups", PInt 3);
    ("backup-security-database", PBool false);
    ("backup-schemas-database", PBool false);
    ("backup-triggers-database", PBool false);
    ("include-replicas", PBool true);
    ("journal-archiving", PBool false);
    ("journal-archive-path", PStr "");
    ("journal-archive-lag-limit", PInt 15) ].

Definition yearly_backup : dict :=
  [ ("backup-id", PStr "1235"); ("backup-type", PStr "yearly") ].

(** A configuration whose field slot holds the word query and a field. *)
Definition word_query_object : pyval := PObj WordQuery [PBool false] [].

Definition fields_config : dict :=
  [ ("database-name", PStr "Documents");
    ("field", PList [word_query_object; title_root]) ].

Definition namespace : pyval :=
  PObj PathNamespace [PStr "ex"; PStr "http://example.com/"] [].

Definition through : pyval :=
  PObj ElementWordQueryThrough [PStr "http://example.com/"; PStr "b"] [].

End Sample.

Section Entities.

Set Default Proof Using "Type".

(** The entity classes live in modules of the package that are imported
    by [database/__init__.py]; what their constructors store and what
    their methods compute is taken as given.  [construct c args] is the
    [_config] dictionary of the object that calling [c] on [args] returns,
    or the exception the call raises. *)
Variable construct : ctor -> list pyval -> result dict.

(** [temp.unmarshal(field)]: the [_config] of the field object after the
    call, or the exception it raises. *)
Variable Field_unmarshal : pyval -> pyval -> result dict.

(** [field.marshal()]: the wire record of a field object. *)
Variable Field_marshal : pyval -> result pyval.

(** [field.field_name()]. *)
Variable field_name : pyval -> result pyval.

Definition new (c : ctor) (args : list pyval) : result pyval :=
  config <- construct c args ;; Ok (PObj c args config).

(** *** Indexes and the other plain records (lines 3436-3566, 3716-3780) *)

(** An index record: the listed keys, then
    [index['range-value-positions'] == 'true'] and
    [index['invalid-values']]. *)
Definition decode_index (c : ctor) (ks : list string) (index : pyval)
    : result pyval :=
  a <- getitems index ks ;;
  rvp <- index.["range-value-positions"] ;;
  iv <- index.["invalid-values"] ;;
  new c (a ++ [PBool (str_eq rvp "true"); iv]).

(** A record whose constructor takes the listed keys and nothing else. *)
Definition decode_plain (c : ctor) (ks : list string) (record : pyval)
    : result pyval :=
  a <- getitems record ks ;; new c a.

Definition decode_range_element_index :=
  decode_index ElementRangeIndex
    ["scalar-type"; "namespace-uri"; "localname"; "collation"].

Definition decode_range_field_index :=
  decode_index FieldRangeIndex ["scalar-type"; "field-name"; "collation"].

Definition decode_range_element_attribute_index :=
  decode_index AttributeRangeIndex
    ["scalar-type"; "parent-namespace-uri"; "parent-localname";
     "namespace-uri"; "localname"; "collation"].

Definition decode_range_path_index :=
  decode_index PathRangeIndex ["scalar-type"; "path-expression"; "collation"].

Definition decode_geospatial_element_index :=
  decode_index GeospatialElementIndex
    ["namespace-uri"; "localname"; "coordinate-system"; "point-format"].

Definition decode_geospatial_path_index :=
  decode_index GeospatialPathIndex
    ["path-expression"; "coordinate-system"; "point-format"].

Definition decode_geospatial_element_child_index :=
  decode_index GeospatialElementChildIndex
    ["parent-namespace-uri"; "parent-localname"; "namespace-uri";
     "localname"; "coordinate-system"; "point-format"].

Definition decode_geospatial_element_pair_index :=
  decode_index GeospatialElementPairIndex
    ["parent-namespace-uri"; "parent-localname";
     "longitude-namespace-uri"; "longitude-localname";
     "latitude-namespace-uri"; "latitude-localname"; "coordinate-system"].

Definition decode_geospatial_element_attribute_pair_index :=
  decode_index GeospatialElementAttributePairIndex
    ["parent-namespace-uri"; "parent-localname";
     "longitude-namespace-uri"; "longitude-localname";
     "latitude-namespace-uri"; "latitude-localname"; "coordinate-system"].

Definition decode_fragment_root :=
  decode_plain FragmentRoot ["namespace-uri"; "localname"].

Definition decode_fragment_parent :=
  decode_plain FragmentParent ["namespace-uri"; "localname"].

Definition decode_path_namespace :=
  decode_plain PathNamespace ["prefix"; "namespace-uri"].

Definition decode_element_word_lexicon :=
  decode_plain ElementWordLexicon ["namespace-uri"; "localname"; "collation"].

Definition decode_element_attribute_word_lexicon :=
  decode_plain AttributeWordLexicon
    ["parent-namespace-uri"; "parent-localname"; "namespace-uri";
     "localname"; "collation"].

Definition decode_element_word_query_through :=
  decode_plain ElementWordQueryThrough ["namespace-uri"; "localname"].

Definition decode_phrase_through :=
  decode_plain PhraseThrough ["namespace-uri"; "localname"].

Definition decode_phrase_around :=
  decode_plain PhraseAround ["namespace-uri"; "localname"].

Definition decode_default_ruleset := decode_plain RuleSet ["location"].

(** *** Merge blackouts (lines 3570-3614) *)

(** [blackout['blackout-type'] == tag and probe(blackout['period'])]:
    the period is read only when the tag matches. *)
Definition blackout_is (blackout : pyval) (tag : string)
    (probe : pyval -> result bool) : result bool :=
  ty <- blackout.["blackout-type"] ;;
  if str_eq ty tag
  then period <- blackout.["period"] ;; probe period
  else Ok false.

Definition decode_merge_blackout (blackout : pyval) : result pyval :=
  c1 <- blackout_is blackout "recurring" (fun p => Ok (is_None p)) ;;
  if c1 then
    a <- getitems blackout ["merge-priority"; "limit"; "day"] ;;
    new MergeBlackout_recurringAllDay a
  else
  c2 <- blackout_is blackout "recurring" (contains "duration") ;;
  if c2 then
    a <- getitems blackout ["merge-priority"; "limit"; "day"] ;;
    period <- blackout.["period"] ;;
    b <- getitems period ["start-time"; "duration"] ;;
    new MergeBlackout_recurringDuration (a ++ b)
  else
  c3 <- blackout_is blackout "recurring" (contains "end-time") ;;
  if c3 then
    a <- getitems blackout ["merge-priority"; "limit"; "day"] ;;
    period <- blackout.["period"] ;;
    b <- getitems period ["start-time"; "end-time"] ;;
    new MergeBlackout_recurringStartEnd (a ++ b)
  else
  c4 <- blackout_is blackout "once" (contains "end-time") ;;
  if c4 then
    a <- getitems blackout ["merge-priority"; "limit"] ;;
    period <- blackout.["period"] ;;
    b <- getitems period ["start-date"; "start-time"; "end-date"; "end-time"] ;;
    new MergeBlackout_oneTimeStartEnd (a ++ b)
  else
  c5 <- blackout_is blackout "once" (contains "duration") ;;
  if c5 then
    a <- getitems blackout ["merge-priority"; "limit"] ;;
    period <- blackout.["period"] ;;
    b <- getitems period ["start-date"; "start-time"; "duration"] ;;
    new MergeBlackout_oneTimeDuration (a ++ b)
  else
    Raise (UnexpectedManagementAPIResponse "Unparseable merge blackout period").


(** *** Scheduled backups (lines 3619-3713) *)

(** The argument list of a backup factory: the schedule keys [ks], the
    keys every kind shares, [incremental] in its place among them. *)
Definition backup_args (backup incremental : pyval) (ks : list string)
    : result (list pyval) :=
  a <- getitems backup
         (ks ++ ["max-backups"; "backup-security-database";
                 "backup-schemas-database"; "backup-triggers-database";
                 "include-replicas"]) ;;
  b <- getitems backup
         ["journal-archiving"; "journal-archive-path";
          "journal-archive-lag-limit"] ;;
  Ok (a ++ [incremental] ++ b).

(** The kind of backup a [backup-type] tag selects, with its schedule
    keys, in the order the tags are tested. *)
Definition backup_kind (tag : pyval) : option (ctor * list string) :=
  if str_eq tag "minutely" then
    Some (ScheduledDatabaseBackup_minutely,
          ["backup-directory"; "backup-period"])
  else if str_eq tag "hourly" then
    Some (ScheduledDatabaseBackup_hourly,
          ["backup-directory"; "backup-period"; "backup-start-time"])
  else if str_eq tag "daily" then
    Some (ScheduledDatabaseBackup_daily,
          ["backup-directory"; "backup-period"; "backup-start-time"])
  else if str_eq tag "weekly" then
    Some (ScheduledDatabaseBackup_weekly,
          ["backup-directory"; "backup-period"; "backup-day";
           "backup-start-time"])
  else if str_eq tag "monthly" then
    Some (ScheduledDatabaseBackup_monthly,
          ["backup-directory"; "backup-period"; "backup-month-day";
           "backup-start-time"])
  else if str_eq tag "once" then
    Some (ScheduledDatabaseBackup_once,
          ["backup-directory"; "backup-start-date"; "backup-start-time"])
  else None.

(** Every test of the chain reads [backup['backup-type']] again; the
    reads after the first give the value of the first, which is bound
    once here. *)
Definition decode_database_backup (backup : pyval) : result pyval :=
  has_incremental <- contains "incremental" backup ;;
  incremental <- (if has_incremental : bool
                  then backup.["incremental"] else Ok PNone) ;;
  tag <- backup.["backup-type"] ;;
  temp <- match backup_kind tag with
          | Some (c, ks) =>
              a <- backup_args backup incremental ks ;; new c a
          | None =>
              Raise (UnexpectedManagementAPIResponse "Unparseable backup")
          end ;;
  id <- backup.["backup-id"] ;;
  set_config_item temp "backup-id" id.

(** *** Fields (lines 3784-3801) *)

Definition decode_field_path (path : pyval) : result pyval :=
  a <- getitems path ["path"; "weight"] ;; new FieldPath a.

Definition call_unmarshal (temp field : pyval) : result pyval :=
  match temp with
  | PObj c args _ =>
      config <- Field_unmarshal temp field ;; Ok (PObj c args config)
  | _ => Raise AttributeError
  end.

Definition decode_field (field : pyval) : result pyval :=
  nm <- field.["field-name"] ;;
  has_paths <- contains "field-path" field ;;
  temp <- (if has_paths : bool then
             raw <- field.["field-path"] ;;
             items <- iter raw ;;
             paths <- mapR decode_field_path items ;;
             new PathField [nm; PList paths]
           else
             has_root <- contains "include-root" field ;;
             root <- (if has_root : bool then
                        r <- field.["include-root"] ;; Ok (str_eq r "true")
                      else Ok false) ;;
             nm' <- field.["field-name"] ;;
             if str_eq nm' "" then new WordQuery [PBool root]
             else new RootField [nm; PBool root]) ;;
  call_unmarshal temp field.


(** The class the three tests of the field block select. *)
Definition field_class (d : dict) (nm : pyval) : ctor :=
  if Dict.mem "field-path" d then PathField
  else if str_eq nm "" then WordQuery
  else RootField.

(** [root] of the field block. *)
Definition include_root (d : dict) : bool :=
  match Dict.get "include-root" d with
  | Some r => str_eq r "true"
  | None => false
  end.

(** *** [Database.unmarshal] (lines 3430-3804) *)

(** The array-valued slots with their decoders, in the order the method
    goes through them. *)
Definition slots : list (string * (pyval -> result pyval)) :=
  [ ("range-element-index", decode_range_element_index);
    ("range-field-index", decode_range_field_index);
    ("range-element-attribute-index", decode_range_element_attribute_index);
    ("range-path-index", decode_range_path_index);
    ("geospatial-element-index", decode_geospatial_element_index);
    ("geospatial-path-index", decode_geospatial_path_index);
    ("geospatial-element-child-index", decode_geospatial_element_child_index);
    ("geospatial-element-pair-index", decode_geospatial_element_pair_index);
    ("geospatial-element-attribute-pair-index",
     decode_geospatial_element_attribute_pair_index);
    ("fragment-root", decode_fragment_root);
    ("fragment-parent", decode_fragment_parent);
    ("merge-blackout", decode_merge_blackout);
    ("database-backup", decode_database_backup);
    ("path-namespace", decode_path_namespace);
    ("element-word-lexicon", decode_element_word_lexicon);
    ("element-attribute-word-lexicon", decode_element_attribute_word_lexicon);
    ("element-word-query-through", decode_element_word_query_through);
    ("phrase-through", decode_phrase_through);
    ("phrase-around", decode_phrase_around);
    ("default-ruleset", decode_default_ruleset);
    ("field", decode_field) ].

(** [olist] of one block: empty when the key is absent, else one decoded
    entity per item of the slot, in order. *)
Definition decode_slot (decode : pyval -> result pyval) (key : string)
    (d : dict) : result (list pyval) :=
  if Dict.mem key d then
    raw <- (PDict d).[key] ;;
    items <- iter raw ;;
    mapR decode items
  else Ok [].

(** One block: build [olist], then [result._config[key] = olist]. *)
Definition unmarshal_slot (db : Database) (key : string)
    (decode : pyval -> result pyval) : M unit :=
  d <~ load (_config db) ;;
  olist <~ lift (decode_slot decode key d) ;;
  config_setitem db key (PList olist).

Fixpoint unmarshal_slots (db : Database)
    (table : list (string * (pyval -> result pyval))) : M unit :=
  match table with
  | [] => mret tt
  | (key, decode) :: rest =>
      _ <~ unmarshal_slot db key decode ;;
      unmarshal_slots db rest
  end.

(** [config] is the address of the caller's dictionary; the new
    [Database] drops the dictionary it was created with and keeps
    [config] itself. *)
Definition unmarshal (config : ref) : M Database :=
  temp <~ Database_init "temp" "$ML-LOCALHOST" ;;
  let db := {| name := name temp; etag := etag temp;
               hostname := hostname temp; _config := config |} in
  nm <~ config_getitem db "database-name" ;;
  let db := {| name := nm; etag := etag db;
               hostname := hostname db; _config := _config db |} in
  _ <~ unmarshal_slots db slots ;;
  mret db.

(** *** [Database.marshal] (lines 3806-3840) *)

(** The keys of the first branch, in the order of its test. *)
Definition marshal_list_keys : list string :=
  [ "range-element-index"; "range-field-index";
    "range-element-attribute-index"; "range-path-index";
    "geospatial-element-index"; "geospatial-path-index";
    "geospatial-element-child-index"; "geospatial-element-pair-index";
    "geospatial-element-attribute-pair-index";
    "fragment-root"; "fragment-parent";
    "element-word-lexicon"; "element-attribute-word-lexicon";
    "element-word-query-through"; "phrase-through"; "phrase-around";
    "default-ruleset"; "path-namespace"; "database-backup";
    "merge-blackout" ].

(** What [struct[key]] is set to. *)
Definition marshal_value (d : dict) (key : string) : result pyval :=
  if existsb (String.eqb key) marshal_list_keys then
    v <- (PDict d).[key] ;;
    items <- iter v ;;
    jlist <- mapR get_config items ;;
    Ok (PList jlist)
  else if String.eqb key "field" then
    v <- (PDict d).["field"] ;;
    items <- iter v ;;
    fstruct <- mapR Field_marshal items ;;
    Ok (PList fstruct)
  else (PDict d).[key].

Fixpoint marshal_loop (d : dict) (keys : list string) (struct : dict)
    : result dict :=
  match keys with
  | [] => Ok struct
  | key :: rest =>
      v <- marshal_value d key ;;
      marshal_loop d rest (Dict.set key v struct)
  end.

Definition marshal (self : Database) : M pyval :=
  d <~ load (_config self) ;;
  struct <~ lift (marshal_loop d (Dict.keys d) []) ;;
  mret (PDict struct).

(** The record [marshal] emits for an entity of the slot [key]. *)
Definition encode (key : string) (entity : pyval) : result pyval :=
  if String.eqb key "field" then Field_marshal entity else get_config entity.

(** *** Slot getters *)

(** The getters of the array-valued slots all read
    [if key in self._config: return self._config[key]] and
    [return None]. *)
Definition slot_getter (key : string) (self : Database) : M pyval :=
  present <~ config_contains self key ;;
  if present : bool then config_getitem self key else mret PNone.

Definition element_range_indexes := slot_getter "range-element-index".
Definition field_range_indexes := slot_getter "range-field-index".
Definition attribute_range_indexes := slot_getter "range-element-attribute-index".
Definition path_range_indexes := slot_getter "range-path-index".
Definition geospatial_element_indexes := slot_getter "geospatial-element-index".
Definition geospatial_path_indexes := slot_getter "geospatial-path-index".
Definition geospatial_element_child_indexes :=
  slot_getter "geospatial-element-child-index".
Definition geospatial_element_pair_indexes :=
  slot_getter "geospatial-element-pair-index".
Definition geospatial_element_attribute_pair_indexes :=
  slot_getter "geospatial-element-attribute-pair-index".
Definition path_namespaces := slot_getter "path-namespace".
Definition element_word_lexicons := slot_getter "element-word-lexicon".
Definition attribute_word_lexicons := slot_getter "element-attribute-word-lexicon".
Definition phrase_throughs := slot_getter "phrase-through".
Definition phrase_arounds := slot_getter "phrase-around".
Definition default_rulesets := slot_getter "default-ruleset".
Definition fragment_roots := slot_getter "fragment-root".
Definition fragment_parents := slot_getter "fragment-parent".
Definition merge_blackouts := slot_getter "merge-blackout".
Definition scheduled_backups := slot_getter "database-backup".

(** Lines 2955-2964: the test and the read use two spellings of the key. *)
Definition element_word_query_throughs (self : Database) : M pyval :=
  present <~ config_contains self "element-word-query-through" ;;
  if present : bool then config_getitem self "element-word-query_through"
  else mret PNone.

(** The getters that read the key they test, by that key. *)
Definition getters : list (string * (Database -> M pyval)) :=
  [ ("range-element-index", element_range_indexes);
    ("range-field-index", field_range_indexes);
    ("range-element-attribute-index", attribute_range_indexes);
    ("range-path-index", path_range_indexes);
    ("geospatial-element-index", geospatial_element_indexes);
    ("geospatial-path-index", geospatial_path_indexes);
    ("geospatial-element-child-index", geospatial_element_child_indexes);
    ("geospatial-element-pair-index", geospatial_element_pair_indexes);
    ("geospatial-element-attribute-pair-index",
     geospatial_element_attribute_pair_indexes);
    ("fragment-root", fragment_roots);
    ("fragment-parent", fragment_parents);
    ("merge-blackout", merge_blackouts);
    ("database-backup", scheduled_backups);
    ("path-namespace", path_namespaces);
    ("element-word-lexicon", element_word_lexicons);
    ("element-attribute-word-lexicon", attribute_word_lexicons);
      ("phrase-through", phrase_throughs);
    ("phrase-around", phrase_arounds);
    ("default-ruleset", default_rulesets) ].

(** *** Fields and the word query (lines 3956-4005) *)

(** The loop of [fields]: the items whose [field_name()] is not None. *)
Fixpoint named_fields (items : list pyval) : result (list pyval) :=
  match items with
  | [] => Ok []
  | field :: rest =>
      n <- field_name field ;;
      more <- named_fields rest ;;
      Ok (if is_None n then more else field :: more)
  end.

Definition fields (self : Database) : M pyval :=
  present <~ config_contains self "field" ;;
  if present : bool then
    raw <~ config_getitem self "field" ;;
    l <~ lift (items <- iter raw ;; named_fields items) ;;
    mret (PList l)
  else mret PNone.

(** The current sequence of a slot, none when the slot is absent. *)
Definition slot_items (slot : string) (d : dict) : result (list pyval) :=
  if Dict.mem slot d then raw <- (PDict d).[slot] ;; iter raw else Ok [].

(** The natural key of an element of a keyed slot: the name of a field,
    the identifier of a scheduled backup.  [None] is no key. *)
Definition natural_key (slot : string) (element : pyval) : result pyval :=
  if String.eqb slot "field" then field_name element
  else if String.eqb slot "database-backup" then
    c <- get_config element ;;
    has_id <- contains "backup-id" c ;;
    if has_id : bool then c.["backup-id"] else Ok PNone
  else Ok PNone.

(** Modelled from the spec: [PropertyLists.add_to_property_list] of the
    utilities module, which is not part of the sources at hand.  The
    element is appended to the slot and the owner is returned; the call
    fails with [TypeMismatch] when the element is not of the expected
    type, and with [DuplicateKey], leaving the slot as it was, when an
    element of the slot already has the natural key of the new one. *)
Definition add_to_property_list (self : Database) (slot : string)
    (element : pyval) (expected : ctor -> bool) : M Database :=
  _ <~ lift (assert_type element expected) ;;
  d <~ load (_config self) ;;
  items <~ lift (slot_items slot d) ;;
  key <~ lift (natural_key slot element) ;;
  keys <~ lift (mapR (natural_key slot) items) ;;
  if existsb (key_eqb key) keys then lift (Raise DuplicateKey)
  else
    _ <~ config_setitem self slot (PList (items ++ [element])) ;;
    mret self.

Definition add_field (self : Database) (field : pyval) : M Database :=
  value <~ lift (assert_type field Field) ;;
  n <~ lift (field_name value) ;;
  if is_None n then
    lift (Raise (ValidationError "Fields must have a non-empty name"))
  else add_to_property_list self "field" field Field.

(** The loop of [word_query]: the first item whose name is None. *)
Fixpoint first_unnamed (items : list pyval) : result (option pyval) :=
  match items with
  | [] => Ok None
  | field :: rest =>
      n <- field_name field ;;
      if is_None n then Ok (Some field) else first_unnamed rest
  end.

Definition word_query (self : Database) : M pyval :=
  present <~ config_contains self "field" ;;
  found <~ (if present : bool then
              raw <~ config_getitem self "field" ;;
              lift (items <- iter raw ;; first_unnamed items)
            else mret None) ;;
  match found with
  | Some field => mret field
  | None => lift (new WordQuery [PBool false])
  end.

(** The loop of [set_word_query].  The assignment in its body names
    [items], which nothing binds: once the right-hand side is evaluated
    the statement raises, and [changed = True] is never reached. *)
Fixpoint set_word_query_loop (items : list pyval) (word_query : pyval)
    (changed : bool) : result bool :=
  match items with
  | [] => Ok changed
  | item :: rest =>
      n <- field_name item ;;
      if str_eq n "" then
        _ <- assert_type word_query WordQuery_class ;;
        Raise (NameError "items")
      else set_word_query_loop rest word_query changed
  end.

Definition set_word_query (self : Database) (word_query : pyval) : M unit :=
  present <~ config_contains self "field" ;;
  fields <~ (if present : bool then config_getitem self "field"
             else mret (PList [])) ;;
  changed <~ lift (items <- iter fields ;;
                   set_word_query_loop items word_query false) ;;
  fields <~ (if changed : bool then mret fields
             else
               match fields with
               | PList l =>
                   lift (wq <- assert_type word_query WordQuery_class ;;
                         Ok (PList (l ++ [wq])))
               | _ => lift (Raise AttributeError)
               end) ;;
  config_setitem self "field" fields.


(** *** Options stored as they are given *)

(** The setters without a validator: [self._config[key] = value] and
    [return self]. *)
Definition option_setter (key : string) (self : Database) (value : pyval)
    : M Database :=
  _ <~ config_setitem self key value ;; mret self.

Definition set_database_name := option_setter "database-name".
Definition database_name := slot_getter "database-name".
Definition set_security_database_name := option_setter "security-database".
Definition security_database_name := slot_getter "security-database".
Definition set_triggers_database_name := option_setter "triggers-database".
Definition triggers_database_name := slot_getter "triggers-database".
Definition set_schema_database_name := option_setter "schema-database".
Definition schema_database_name := slot_getter "schema-database".
Definition set_reindexer_timestamp := option_setter "reindexer-timestamp".
Definition reindexer_timestamp := slot_getter "reindexer-timestamp".
Definition set_in_memory_limit := option_setter "in-memory-limit".
Definition in_memory_limit := slot_getter "in-memory-limit".
Definition set_in_memory_list_size := option_setter "in-memory-list-size".
Definition in_memory_list_size := slot_getter "in-memory-list-size".
Definition set_in_memory_tree_size := option_setter "in-memory-tree-size".
Definition in_memory_tree_size := slot_getter "in-memory-tree-size".
Definition set_in_memory_range_index_size :=
  option_setter "in-memory-range-index-size".
Definition in_memory_range_index_size :=
  slot_getter "in-memory-range-index-size".
Definition set_in_memory_reverse_index_size :=
  option_setter "in-memory-reverse-index-size".
Definition in_memory_reverse_index_size :=
  slot_getter "in-memory-reverse-index-size".
Definition set_in_memory_triple_index_size :=
  option_setter "in-memory-triple-index-size".
Definition in_memory_triple_index_size :=
  slot_getter "in-memory-triple-index-size".
Definition set_large_size_threshold := option_setter "large-size-threshold".
Definition large_size_threshold := slot_getter "large-size-threshold".
Definition set_journal_size := option_setter "journal-size".
Definition journal_size := slot_getter "journal-size".
Definition set_journal_count := option_setter "journal-count".
Definition journal_count := slot_getter "journal-count".
Definition set_positions_list_max_size :=
  option_setter "positions-list-max-size".
Definition positions_list_max_size := slot_getter "positions-list-max-size".
Definition set_merge_max_size := option_setter "merge-max-size".
Definition merge_max_size := slot_getter "merge-max-size".
Definition set_merge_min_size := option_setter "merge-min-size".
Definition merge_min_size := slot_getter "merge-min-size".
Definition set_merge_min_ratio := option_setter "merge-min-ratio".
Definition merge_min_ratio := slot_getter "merge-min-ratio".
Definition set_merge_timestamp := option_setter "merge-timestamp".
Definition merge_timestamp := slot_getter "merge-timestamp".

(** These options: the key, the setter and the getter of each. *)
Definition stored_options
    : list (string * (Database -> pyval -> M Database) * (Database -> M pyval)) :=
  [ ("database-name", set_database_name, database_name);
    ("security-database", set_security_database_name, security_database_name);
    ("triggers-database", set_triggers_database_name, triggers_database_name);
    ("schema-database", set_schema_database_name, schema_database_name);
    ("reindexer-timestamp", set_reindexer_timestamp, reindexer_timestamp);
    ("in-memory-limit", set_in_memory_limit, in_memory_limit);
    ("in-memory-list-size", set_in_memory_list_size, in_memory_list_size);
    ("in-memory-tree-size", set_in_memory_tree_size, in_memory_tree_size);
    ("in-memory-range-index-size", set_in_memory_range_index_size,
     in_memory_range_index_size);
    ("in-memory-reverse-index-size", set_in_memory_reverse_index_size,
     in_memory_reverse_index_size);
    ("in-memory-triple-index-size", set_in_memory_triple_index_size,
     in_memory_triple_index_size);
    ("large-size-threshold", set_large_size_threshold, large_size_threshold);
    ("journal-size", set_journal_size, journal_size);
    ("journal-count", set_journal_count, journal_count);
    ("positions-list-max-size", set_positions_list_max_size,
     positions_list_max_size);
    ("merge-max-size", set_merge_max_size, merge_max_size);
    ("merge-min-size", set_merge_min_size, merge_min_size);
    ("merge-min-ratio", set_merge_min_ratio, merge_min_ratio);
    ("merge-timestamp", set_merge_timestamp, merge_timestamp) ].

(** *** The other option getters (lines 128-2810)

    The getters of the options whose setters go through the validators:
    like the ones above they give the value under their key, or None. *)
Definition enabled := slot_getter "enabled".
Definition forest_names := slot_getter "forest".
Definition language := slot_getter "language".
Definition stemmed_searches := slot_getter "stemmed-searches".
Definition word_searches := slot_getter "word-searches".
Definition word_positions := slot_getter "word-positions".
Definition fast_phrase_searches := slot_getter "fast-phrase-searches".
Definition fast_reverse_searches := slot_getter "fast-reverse-searches".
Definition triple_index := slot_getter "triple-index".
Definition triple_positions := slot_getter "triple-positions".
Definition fast_case_sensitive_searches :=
  slot_getter "fast-case-sensitive-searches".
Definition fast_diacritic_sensitive_searches :=
  slot_getter "fast-diacritic-sensitive-searches".
Definition fast_element_word_searches :=
  slot_getter "fast-element-word-searches".
Definition element_word_positions := slot_getter "element-word-positions".
Definition fast_element_phrase_searches :=
  slot_getter "fast-element-phrase-searches".
Definition element_value_positions := slot_getter "element-value-positions".
Definition attribute_value_positions :=
  slot_getter "attribute-value-positions".
Definition field_value_searches := slot_getter "field-value-searches".
Definition field_value_positions := slot_getter "field-value-positions".
Definition three_character_searches := slot_getter "three-character-searches".
Definition three_character_word_positions :=
  slot_getter "three-character-word-positions".
Definition fast_element_character_searches :=
  slot_getter "fast-element-character-searches".
Definition trailing_wildcard_searches :=
  slot_getter "trailing-wildcard-searches".
Definition trailing_wildcard_word_positions :=
  slot_getter "trailing-wildcard-word-positions".
Definition fast_element_trailing_wildcard_searches :=
  slot_getter "fast-element-trailing-wildcard-searches".
Definition two_character_searches := slot_getter "two-character-searches".
Definition one_character_searches := slot_getter "one-character-searches".
Definition uri_lexicon := slot_getter "uri-lexicon".
Definition collection_lexicon := slot_getter "collection-lexicon".
Definition reindexer_enable := slot_getter "reindexer-enable".
Definition reindexer_throttle := slot_getter "reindexer-throttle".
Definition directory_creation := slot_getter "directory-creation".
Definition maintain_last_modified := slot_getter "maintain-last-modified".
Definition maintain_directory_last_modified :=
  slot_getter "maintain-directory-last-modified".
Definition inherit_permissions := slot_getter "inherit-permissions".
Definition inherit_collections := slot_getter "inherit-collections".
Definition inherit_quality := slot_getter "inherit-quality".
Definition locking := slot_getter "locking".
Definition journaling := slot_getter "journaling".
Definition preallocate_journals := slot_getter "preallocate-journals".
Definition preload_mapped_data := slot_getter "preload-mapped-data".
Definition preload_replica_mapped_data :=
  slot_getter "preload-replica-mapped-data".
Definition range_index_optimize := slot_getter "range-index-optimize".
Definition format_compatibility := slot_getter "format-compatibility".
Definition index_detection := slot_getter "index-detection".
Definition expunge_locks := slot_getter "expunge-locks".
Definition tf_normalization := slot_getter "tf-normalization".
Definition merge_priority := slot_getter "merge-priority".
Definition rebalancer_enable := slot_getter "rebalancer-enable".
Definition rebalancer_throttle := slot_getter "rebalancer-throttle".
Definition assignment_policy := slot_getter "assignment-policy".

(** Every option getter of the class with its key, in the order of the
    source. *)
Definition option_getters : list (string * (Database -> M pyval)) :=
  [ ("database-name", database_name);
    ("enabled", enabled);
    ("security-database", security_database_name);
    ("triggers-database", triggers_database_name);
    ("schema-database", schema_database_name);
    ("forest", forest_names);
    ("language", language);
    ("stemmed-searches", stemmed_searches);
    ("word-searches", word_searches);
    ("word-positions", word_positions);
    ("fast-phrase-searches", fast_phrase_searches);
    ("fast-reverse-searches", fast_reverse_searches);
    ("triple-index", triple_index);
    ("triple-positions", triple_positions);
    ("fast-case-sensitive-searches", fast_case_sensitive_searches);
    ("fast-diacritic-sensitive-searches", fast_diacritic_sensitive_searches);
    ("fast-element-word-searches", fast_element_word_searches);
    ("element-word-positions", element_word_positions);
    ("fast-element-phrase-searches", fast_element_phrase_searches);
    ("element-value-positions", element_value_positions);
    ("attribute-value-positions", attribute_value_positions);
    ("field-value-searches", field_value_searches);
    ("field-value-positions", field_value_positions);
    ("three-character-searches", three_character_searches);
    ("three-character-word-positions", three_character_word_positions);
    ("fast-element-character-searches", fast_element_character_searches);
    ("trailing-wildcard-searches", trailing_wildcard_searches);
    ("trailing-wildcard-word-positions", trailing_wildcard_word_positions);
    ("fast-element-trailing-wildcard-searches",
     fast_element_trailing_wildcard_searches);
    ("two-character-searches", two_character_searches);
    ("one-character-searches", one_character_searches);
    ("uri-lexicon", uri_lexicon);
    ("collection-lexicon", collection_lexicon);
    ("reindexer-enable", reindexer_enable);
    ("reindexer-throttle", reindexer_throttle);
    ("reindexer-timestamp", reindexer_timestamp);
    ("directory-creation", directory_creation);
    ("maintain-last-modified", maintain_last_modified);
    ("maintain-directory-last-modified", maintain_directory_last_modified);
    ("inherit-permissions", inherit_permissions);
    ("inherit-collections", inherit_collections);
    ("inherit-quality", inherit_quality);
    ("in-memory-limit", in_memory_limit);
    ("in-memory-list-size", in_memory_list_size);
    ("in-memory-tree-size", in_memory_tree_size);
    ("in-memory-range-index-size", in_memory_range_index_size);
    ("in-memory-reverse-index-size", in_memory_reverse_index_size);
    ("in-memory-triple-index-size", in_memory_triple_index_size);
    ("large-size-threshold", large_size_threshold);
    ("locking", locking);
    ("journaling", journaling);
    ("journal-size", journal_size);
    ("journal-count", journal_count);
    ("preallocate-journals", preallocate_journals);
    ("preload-mapped-data", preload_mapped_data);
    ("preload-replica-mapped-data", preload_replica_mapped_data);
    ("range-index-optimize", range_index_optimize);
    ("positions-list-max-size", positions_list_max_size);
    ("format-compatibility", format_compatibility);
    ("index-detection", index_detection);
    ("expunge-locks", expunge_locks);
    ("tf-normalization", tf_normalization);
    ("merge-priority", merge_priority);
    ("merge-max-size", merge_max_size);
    ("merge-min-size", merge_min_size);
    ("merge-min-ratio", merge_min_ratio);
    ("merge-timestamp", merge_timestamp);
    ("rebalancer-enable", rebalancer_enable);
    ("rebalancer-throttle", rebalancer_throttle);
    ("assignment-policy", assignment_policy) ].

(** The options [__init__] defines. *)
Definition default_keys : list string :=
  [ "database-name"; "forest"; "security-database"; "schema-database";
    "enabled"; "language" ].

(** *** Setters that check their argument themselves
    (lines 2833-2842, 2892-2901, 2977-2986) *)

(** [isinstance(x, c)] for a class [c] that has no class below it. *)
Definition isinstance (x : pyval) (c : ctor) : bool :=
  match x, c with
  | PObj PathNamespace _ _, PathNamespace => true
  | PObj AttributeWordLexicon _ _, AttributeWordLexicon => true
  | PObj ElementWordQueryThrough _ _, ElementWordQueryThrough => true
  | _, _ => false
  end.

(** The loop over the list: the first element of another class raises. *)
Fixpoint check_items (c : ctor) (msg : string) (items : list pyval)
    : result unit :=
  match items with
  | [] => Ok tt
  | item :: rest =>
      if isinstance item c then check_items c msg rest
      else Raise (ValidationError msg)
  end.

(** The three setters: one object is stored as a list of one under
    [key_one]; a list is checked element by element and stored itself under
    [key_list]; anything else is refused. *)
Definition set_checked (c : ctor) (key_one key_list msg_list msg_item : string)
    (self : Database) (value : pyval) : M unit :=
  if isinstance value c then config_setitem self key_one (PList [value])
  else
    match value with
    | PList items =>
        _ <~ lift (check_items c msg_item items) ;;
        config_setitem self key_list value
    | _ => lift (Raise (ValidationError msg_list))
    end.

Definition set_path_namespaces :=
  set_checked PathNamespace "path-namespace" "path-namespace"
    "List of paths expected." "List of paths expected.".

Definition set_attribute_word_lexicons :=
  set_checked AttributeWordLexicon
    "element-attribute-word-lexicon" "element-attribute-word-lexicon"
    "List of lexicons expected." "List of lexicons expected.".

(** The list is stored under a key spelled with an underscore. *)
Definition set_element_word_query_throughs :=
  set_checked ElementWordQueryThrough
    "element-word-query-through" "element-word-query_through"
    "List of query throughs expected." "List of query_throughs expected.".

(** The two of them that store under the key their getter reads, with the
    class they check and that getter. *)
Definition checked_setters
    : list (ctor * (Database -> pyval -> M unit) * (Database -> M pyval)) :=
  [ (PathNamespace, set_path_namespaces, path_namespaces);
    (AttributeWordLexicon, set_attribute_word_lexicons,
     attribute_word_lexicons) ].

(** *** Required fields and classes of the slots *)

(** The first of the keys [ks] that the record lacks. *)
Fixpoint first_missing (ks : list string) (d : dict) : option string :=
  match ks with
  | [] => None
  | k :: rest => if Dict.mem k d then first_missing rest d else Some k
  end.

(** The values of the keys [ks] in the record. *)
Definition values_of (ks : list string) (d : dict) : list pyval :=
  map (fun k => match Dict.get k d with Some v => v | None => PNone end) ks.

(** The slots whose records are read key by key: the class built, the
    keys read, and whether the two index keys follow. *)
Definition record_shapes : list (string * (ctor * list string * bool)) :=
  [ ("range-element-index",
     (ElementRangeIndex,
      ["scalar-type"; "namespace-uri"; "localname"; "collation"], true));
    ("range-field-index",
     (FieldRangeIndex, ["scalar-type"; "field-name"; "collation"], true));
    ("range-element-attribute-index",
     (AttributeRangeIndex,
      ["scalar-type"; "parent-namespace-uri"; "parent-localname";
       "namespace-uri"; "localname"; "collation"], true));
    ("range-path-index",
     (PathRangeIndex, ["scalar-type"; "path-expression"; "collation"], true));
    ("geospatial-element-index",
     (GeospatialElementIndex,
      ["namespace-uri"; "localname"; "coordinate-system"; "point-format"],
      true));
    ("geospatial-path-index",
     (GeospatialPathIndex,
      ["path-expression"; "coordinate-system"; "point-format"], true));
    ("geospatial-element-child-index",
     (GeospatialElementChildIndex,
      ["parent-namespace-uri"; "parent-localname"; "namespace-uri";
       "localname"; "coordinate-system"; "point-format"], true));
    ("geospatial-element-pair-index",
     (GeospatialElementPairIndex,
      ["parent-namespace-uri"; "parent-localname";
       "longitude-namespace-uri"; "longitude-localname";
       "latitude-namespace-uri"; "latitude-localname"; "coordinate-system"],
      true));
    ("geospatial-element-attribute-pair-index",
     (GeospatialElementAttributePairIndex,
      ["parent-namespace-uri"; "parent-localname";
       "longitude-namespace-uri"; "longitude-localname";
       "latitude-namespace-uri"; "latitude-localname"; "coordinate-system"],
      true));
    ("fragment-root", (FragmentRoot, ["namespace-uri"; "localname"], false));
    ("fragment-parent", (FragmentParent, ["namespace-uri"; "localname"], false));
    ("path-namespace", (PathNamespace, ["prefix"; "namespace-uri"], false));
    ("element-word-lexicon",
     (ElementWordLexicon, ["namespace-uri"; "localname"; "collation"], false));
    ("element-attribute-word-lexicon",
     (AttributeWordLexicon,
      ["parent-namespace-uri"; "parent-localname"; "namespace-uri";
       "localname"; "collation"], false));
    ("element-word-query-through",
     (ElementWordQueryThrough, ["namespace-uri"; "localname"], false));
    ("phrase-through", (PhraseThrough, ["namespace-uri"; "localname"], false));
    ("phrase-around", (PhraseAround, ["namespace-uri"; "localname"], false));
    ("default-ruleset", (RuleSet, ["location"], false)) ].

(** The keys a record of that shape must have, in the order they are
    read, and the arguments its constructor is given. *)
Definition required_keys (shape : ctor * list string * bool) : list string :=
  let '(_, ks, index) := shape in
  if index then ks ++ ["range-value-positions"; "invalid-values"] else ks.

Definition constructor_args (shape : ctor * list string * bool) (d : dict)
    : list pyval :=
  let '(_, ks, index) := shape in
  if index
  then values_of ks d ++
       [ PBool (match Dict.get "range-value-positions" d with
                | Some v => str_eq v "true"
                | None => false
                end);
         match Dict.get "invalid-values" d with Some v => v | None => PNone end ]
  else values_of ks d.

Definition shape_decoder (shape : ctor * list string * bool)
    : pyval -> result pyval :=
  let '(c, ks, index) := shape in
  if index then decode_index c ks else decode_plain c ks.

(** The classes the entities of each slot can have. *)
Definition slot_classes (key : string) : list ctor :=
  if String.eqb key "merge-blackout" then
    [ MergeBlackout_recurringAllDay; MergeBlackout_recurringDuration;
      MergeBlackout_recurringStartEnd; MergeBlackout_oneTimeStartEnd;
      MergeBlackout_oneTimeDuration ]
  else if String.eqb key "database-backup" then
    [ ScheduledDatabaseBackup_minutely; ScheduledDatabaseBackup_hourly;
      ScheduledDatabaseBackup_daily; ScheduledDatabaseBackup_weekly;
      ScheduledDatabaseBackup_monthly; ScheduledDatabaseBackup_once ]
  else if String.eqb key "field" then [ PathField; WordQuery; RootField ]
  else
    match find (fun entry => String.eqb key (fst entry)) record_shapes with
    | Some (_, (c, _, _)) => [c]
    | None => []
    end.

(** The named items of a field slot, as a filter. *)
Definition is_named (field : pyval) : bool :=
  match field_name field with
  | Ok n => negb (is_None n)
  | Raise _ => false
  end.

(** ** Dictionaries and loops *)

Lemma get_set_same (k : string) (v : pyval) (d : dict) :
  Dict.get k (Dict.set k v d) = Some v.
Proof.
  induction d as [|[k' v'] d IH]; simpl.
  - now rewrite String.eqb_refl.
  - destruct (String.eqb k k') eqn:E; simpl; rewrite ?String.eqb_refl, ?E; auto.
Qed.

Lemma get_set_other (k k' : string) (v : pyval) (d : dict) :
  k <> k' -> Dict.get k' (Dict.set k v d) = Dict.get k' d.
Proof.
  intros Hne. induction d as [|[k0 v0] d IH]; simpl.
  - destruct (String.eqb k' k) eqn:E; auto.
    apply String.eqb_eq in E. congruence.
  - destruct (String.eqb k k0) eqn:E; simpl.
    + apply String.eqb_eq in E. subst k0.
      destruct (String.eqb k' k) eqn:E'; auto.
      apply String.eqb_eq in E'. congruence.
    + now rewrite IH.
Qed.

Lemma get_In_keys (k : string) (d : dict) (v : pyval) :
  Dict.get k d = Some v -> In k (Dict.keys d).
Proof.
  induction d as [|[k' v'] d IH]; simpl; [discriminate|].
  destruct (String.eqb k k') eqn:E; intros H.
  - left. apply String.eqb_eq in E. auto.
  - right. auto.
Qed.

Lemma In_keys_get (k : string) (d : dict) :
  In k (Dict.keys d) -> exists v, Dict.get k d = Some v.
Proof.
  induction d as [|[k' v'] d IH]; simpl; [intros []|].
  intros [H|H].
  - subst k'. rewrite String.eqb_refl. eauto.
  - destruct (String.eqb k k'); eauto.
Qed.

Lemma mem_false_get (k : string) (d : dict) :
  Dict.mem k d = false -> Dict.get k d = None.
Proof. unfold Dict.mem. destruct (Dict.get k d); congruence. Qed.

Lemma get_mem (k : string) (d : dict) (v : pyval) :
  Dict.get k d = Some v -> Dict.mem k d = true.
Proof. unfold Dict.mem. intros ->. reflexivity. Qed.

Lemma getitem_Ok (v x : pyval) (k : string) :
  v.[k] = Ok x -> exists d, v = PDict d /\ Dict.get k d = Some x.
Proof.
  destruct v; simpl; try discriminate.
  destruct (Dict.get k d) eqn:E; intros H; inversion H; subst; eauto.
Qed.

Lemma rbind_Ok {A B} (a : A) (f : A -> result B) : rbind (Ok a) f = f a.
Proof. reflexivity. Qed.

Lemma mapR_Forall2 {A B} (f : A -> result B) (l : list A) (l' : list B) :
  mapR f l = Ok l' -> Forall2 (fun x y => f x = Ok y) l l'.
Proof.
  revert l'. induction l as [|x xs IH]; simpl; intros l' H.
  - inversion H. constructor.
  - destruct (f x) eqn:Ex; simpl in H; [|discriminate].
    destruct (mapR f xs) eqn:Exs; simpl in H; [|discriminate].
    inversion H; subst. constructor; auto.
Qed.

Lemma Forall2_mapR {A B} (f : A -> result B) (l : list A) (l' : list B) :
  Forall2 (fun x y => f x = Ok y) l l' -> mapR f l = Ok l'.
Proof.
  induction 1 as [|x y xs ys Hxy _ IH]; simpl; auto.
  now rewrite Hxy, IH.
Qed.

Lemma mapR_total {A B} (f : A -> result B) (l : list A) :
  Forall (fun x => exists y, f x = Ok y) l -> exists l', mapR f l = Ok l'.
Proof.
  induction 1 as [|x xs [y Hy] _ [ys IH]]; simpl; eauto.
  rewrite Hy, IH. simpl. eauto.
Qed.

(** ** Decoders build objects *)

Lemma new_object (c : ctor) (args : list pyval) (e : pyval) :
  new c args = Ok e -> exists config, e = PObj c args config.
Proof.
  unfold new. destruct (construct c args); simpl; intros H; inversion H; eauto.
Qed.

Lemma decode_index_class c ks index e :
  decode_index c ks index = Ok e -> class_of e = Some c.
Proof.
  unfold decode_index. intros H. repeat bind_ok H.
  apply new_object in H as [config ->]. reflexivity.
Qed.

Lemma decode_plain_class c ks record e :
  decode_plain c ks record = Ok e -> class_of e = Some c.
Proof.
  unfold decode_plain. intros H. repeat bind_ok H.
  apply new_object in H as [config ->]. reflexivity.
Qed.

Lemma decode_merge_blackout_object blackout e :
  decode_merge_blackout blackout = Ok e -> is_object e = true.
Proof.
  unfold decode_merge_blackout. intros H.
  repeat (bind_ok H;
          match type of H with
          | (if ?b then _ else _) = _ => destruct b
          | _ => idtac
          end);
    try discriminate H;
    apply new_object in H as [config ->]; reflexivity.
Qed.

Lemma decode_database_backup_object backup e :
  decode_database_backup backup = Ok e -> is_object e = true.
Proof.
  unfold decode_database_backup, set_config_item. intros H.
  repeat bind_ok H.
  destruct a2; try discriminate H. inversion H. reflexivity.
Qed.

Lemma call_unmarshal_class temp field e :
  call_unmarshal temp field = Ok e -> class_of e = class_of temp.
Proof.
  unfold call_unmarshal. destruct temp; try discriminate.
  destruct (Field_unmarshal _ _); simpl; intros H; inversion H. reflexivity.
Qed.

Lemma decode_field_class_of d e :
  decode_field (PDict d) = Ok e ->
  exists nm, Dict.get "field-name" d = Some nm /\
             class_of e = Some (field_class d nm).
Proof.
  unfold decode_field, field_class. simpl.
  destruct (Dict.get "field-name" d) as [nm|] eqn:Hn; simpl; [|discriminate].
  intros H. exists nm. split; [reflexivity|].
  bind_ok H. apply call_unmarshal_class in H. rewrite H. clear H.
  destruct (Dict.mem "field-path" d); simpl in E.
  - repeat bind_ok E. apply new_object in E as [config ->]. reflexivity.
  - repeat bind_ok E.
    destruct (str_eq nm ""); apply new_object in E as [config ->]; reflexivity.
Qed.

Lemma decode_field_Field field e :
  decode_field field = Ok e ->
  exists c args config, e = PObj c args config /\ Field c = true.
Proof.
  intros H.
  assert (exists d, field = PDict d) as [d ->].
  { unfold decode_field in H. bind_ok H. apply getitem_Ok in E as (d & -> & _). eauto. }
  apply decode_field_class_of in H as (nm & _ & Hc).
  destruct e; try discriminate Hc. inversion Hc; subst.
  exists (field_class d nm), args, config. split; [reflexivity|].
  unfold field_class. destruct (Dict.mem _ d); [reflexivity|].
  destruct (str_eq nm ""); reflexivity.
Qed.


(** ** What [unmarshal] does to the caller's dictionary *)

Lemma slots_keys : map fst slots = slot_keys.
Proof. reflexivity. Qed.

Lemma NoDup_slot_keys : NoDup slot_keys.
Proof.
  unfold slot_keys.
  repeat (constructor;
          [simpl; intros H;
           repeat (destruct H as [H|H]; [discriminate H|]); exact H|]).
  constructor.
Qed.

Lemma decode_slot_ext decode key d1 d2 :
  Dict.get key d1 = Dict.get key d2 ->
  decode_slot decode key d1 = decode_slot decode key d2.
Proof.
  intros H. unfold decode_slot, Dict.mem, getitem. now rewrite H.
Qed.

Lemma decode_slot_absent decode key d :
  Dict.mem key d = false -> decode_slot decode key d = Ok [].
Proof. intros H. unfold decode_slot. now rewrite H. Qed.

Lemma decode_slot_present decode key d raw olist :
  Dict.get key d = Some raw ->
  decode_slot decode key d = Ok olist ->
  exists items, iter raw = Ok items /\ mapR decode items = Ok olist.
Proof.
  intros Hg. unfold decode_slot, Dict.mem, getitem. rewrite Hg. simpl.
  destruct (iter raw) as [items|]; simpl; [eauto|discriminate].
Qed.

Lemma unmarshal_slot_run db key decode h :
  unmarshal_slot db key decode h =
  match decode_slot decode key (cell h (_config db)) with
  | Ok olist =>
      (Ok tt,
       {| next := next h;
          cell := fun r' => if Nat.eqb r' (_config db)
                            then Dict.set key (PList olist) (cell h (_config db))
                            else cell h r' |})
  | Raise e => (Raise e, h)
  end.
Proof.
  unfold unmarshal_slot, config_setitem, mbind, load, lift, store.
  destruct (decode_slot decode key (cell h (_config db))); reflexivity.
Qed.

(** The outcome of a run over a table of slots: the slots of [done] are
    rebound to their decoded lists, every other key is as before, and a
    run that raises stopped at the first slot of [rest]. *)
Lemma unmarshal_slots_spec db table :
  NoDup (map fst table) ->
  forall h r h',
  unmarshal_slots db table h = (r, h') ->
  next h' = next h /\
  (forall r', r' <> _config db -> cell h' r' = cell h r') /\
  exists done rest,
    table = done ++ rest /\
    (forall key decode, In (key, decode) done ->
       exists olist,
         decode_slot decode key (cell h (_config db)) = Ok olist /\
         Dict.get key (cell h' (_config db)) = Some (PList olist)) /\
    (forall key, ~ In key (map fst done) ->
       Dict.get key (cell h' (_config db)) = Dict.get key (cell h (_config db))) /\
    match r with
    | Ok _ => rest = []
    | Raise e =>
        exists key decode rest',
          rest = (key, decode) :: rest' /\
          decode_slot decode key (cell h (_config db)) = Raise e
    end.
Proof.
  induction table as [|[key decode] table IH]; intros Hnd h r h' Hrun.
  - simpl in Hrun. inversion Hrun; subst.
    repeat split; auto. exists [], []. repeat split; auto. intros ? ? [].
  - simpl in Hnd. inversion Hnd as [|? ? Hnotin Hnd']; subst.
    simpl in Hrun. unfold mbind in Hrun. rewrite unmarshal_slot_run in Hrun.
    destruct (decode_slot decode key (cell h (_config db))) as [olist|e] eqn:Ed.
    + apply IH in Hrun; auto. simpl in Hrun.
      rewrite Nat.eqb_refl in Hrun.
      destruct Hrun as (Hnext & Hframe & done & rest & Htab & Hdone & Hother & Hr).
      split; [exact Hnext|]. split.
      { intros r' Hne. rewrite Hframe by exact Hne.
        apply Nat.eqb_neq in Hne. now rewrite Hne. }
      assert (Hkey : ~ In key (map fst done)).
      { intros Hin. apply Hnotin. rewrite Htab, map_app. apply in_or_app. auto. }
      exists ((key, decode) :: done), rest. split; [simpl; now rewrite Htab|].
      split; [|split].
      * intros k dec [Heq|Hin].
        -- inversion Heq; subst. exists olist. split; [exact Ed|].
           rewrite Hother by exact Hkey. apply get_set_same.
        -- destruct (Hdone k dec Hin) as (l & Hdec & Hget).
           exists l. split; [|exact Hget].
           rewrite <- Hdec. apply decode_slot_ext. symmetry.
           apply get_set_other. intros ->. apply Hkey.
           change k with (fst (k, dec)). now apply in_map.
      * intros k Hk. simpl in Hk.
        rewrite Hother by (intros Hin; apply Hk; right; exact Hin).
        apply get_set_other. intros Heq. apply Hk. left. exact Heq.
      * destruct r as [u|e]; [exact Hr|].
        destruct Hr as (k & dec & rest' & Hrest & Hdec).
        exists k, dec, rest'. split; [exact Hrest|].
        rewrite <- Hdec. apply decode_slot_ext. symmetry.
        apply get_set_other. intros ->. apply Hnotin.
        rewrite Htab, Hrest, map_app. apply in_or_app. right. now left.
    + inversion Hrun; subst.
      repeat split; auto.
      exists [], ((key, decode) :: table). repeat split; auto.
      * intros ? ? [].
      * exists key, decode, table. auto.
Qed.

Lemma unmarshal_run config h :
  unmarshal config h =
  let h0 := snd (Database_init "temp" "$ML-LOCALHOST" h) in
  match Dict.get "database-name" (cell h0 config) with
  | Some nm =>
      let db := {| name := nm; etag := PNone;
                   hostname := PStr "$ML-LOCALHOST"; _config := config |} in
      match unmarshal_slots db slots h0 with
      | (Ok _, h1) => (Ok db, h1)
      | (Raise e, h1) => (Raise e, h1)
      end
  | None => (Raise (KeyError "database-name"), h0)
  end.
Proof.
  unfold unmarshal, Database_init, config_getitem.
  unfold mbind at 1 2 3 4. unfold alloc, load, lift, mret, getitem.
  cbn [snd _config cell name etag hostname].
  destruct (Dict.get "database-name" _); [|reflexivity].
  unfold mbind. reflexivity.
Qed.

(** The same for the whole of [unmarshal], given the address of a
    dictionary that exists. *)
Lemma unmarshal_spec config h r h' :
  config < next h ->
  unmarshal config h = (r, h') ->
  (forall r', r' < next h -> r' <> config -> cell h' r' = cell h r') /\
  match r with
  | Ok db => _config db = config
  | Raise _ => True
  end /\
  exists done rest,
    slots = done ++ rest /\
    (forall key decode, In (key, decode) done ->
       exists olist,
         decode_slot decode key (cell h config) = Ok olist /\
         Dict.get key (cell h' config) = Some (PList olist)) /\
    (forall key, ~ In key (map fst done) ->
       Dict.get key (cell h' config) = Dict.get key (cell h config)) /\
    match r with
    | Ok _ => rest = []
    | Raise e =>
        (done = [] /\ Dict.get "database-name" (cell h config) = None /\
         e = KeyError "database-name") \/
        exists key decode rest',
          rest = (key, decode) :: rest' /\
          decode_slot decode key (cell h config) = Raise e
    end.
Proof.
  intros Hlt Hrun.
  assert (Hne : Nat.eqb config (next h) = false) by (apply Nat.eqb_neq; lia).
  assert (Hold : forall r', r' < next h -> Nat.eqb r' (next h) = false)
    by (intros; apply Nat.eqb_neq; lia).
  rewrite unmarshal_run in Hrun.
  cbn [snd Database_init alloc mbind mret cell] in Hrun.
  unfold Database_init, mbind, alloc, mret in Hrun.
  cbn [snd cell] in Hrun. rewrite Hne in Hrun.
  destruct (Dict.get "database-name" (cell h config)) as [nm|] eqn:Hn.
  - cbv zeta in Hrun.
    match type of Hrun with
    | context [unmarshal_slots ?db ?t ?h0] =>
        destruct (unmarshal_slots db t h0) as [r0 h0'] eqn:Hs;
        apply unmarshal_slots_spec in Hs;
        [|rewrite slots_keys; apply NoDup_slot_keys]
    end.
    cbn [cell next _config] in Hs. rewrite Hne in Hs.
    destruct Hs as (Hnext & Hframe & done & rest & Htab & Hdone & Hother & Hr).
    destruct r0 as [u|e]; inversion Hrun; subst.
    + split; [|split; [reflexivity|]].
      { intros r' Hr' Hc. rewrite Hframe by exact Hc. now rewrite Hold. }
      exists done, []. rewrite app_nil_r in Htab. rewrite app_nil_r. auto.
    + split; [|split; [exact I|]].
      { intros r' Hr' Hc. rewrite Hframe by exact Hc. now rewrite Hold. }
      exists done, rest. repeat split; auto.
  - inversion Hrun; subst. cbn [cell].
    split; [|split; [exact I|]].
    { intros r' Hr' Hc. now rewrite Hold. }
    exists [], slots. rewrite Hne. repeat split; auto. intros ? ? [].
Qed.


Lemma slot_decoders_objects key decode x e :
  In (key, decode) slots -> decode x = Ok e -> is_object e = true.
Proof.
  assert (Hc : forall c, class_of e = Some c -> is_object e = true)
    by (destruct e; simpl; congruence).
  unfold slots. simpl. intros Hin Hd.
  repeat (destruct Hin as [Hin|Hin];
          [inversion Hin; subst; clear Hin;
           first [ apply decode_index_class in Hd; eapply Hc; exact Hd
                 | apply decode_plain_class in Hd; eapply Hc; exact Hd
                 | now apply decode_merge_blackout_object in Hd
                 | now apply decode_database_backup_object in Hd
                 | apply decode_field_Field in Hd as (c & a & cf & -> & _);
                   reflexivity ]
          |]).
  destruct Hin.
Qed.

Lemma decode_slot_objects key decode d olist :
  In (key, decode) slots ->
  decode_slot decode key d = Ok olist ->
  forallb is_object olist = true.
Proof.
  intros Hin. unfold decode_slot.
  destruct (Dict.mem key d); [|intros H; inversion H; reflexivity].
  intros H. repeat bind_ok H. apply mapR_Forall2 in H. clear E E0.
  induction H as [|x y xs ys Hxy _ IH]; [reflexivity|].
  simpl. rewrite IH, andb_true_r.
  eapply slot_decoders_objects; eauto.
Qed.

Lemma decode_slot_fields d olist :
  decode_slot decode_field "field" d = Ok olist ->
  Forall (fun e => exists c args config, e = PObj c args config /\ Field c = true)
         olist.
Proof.
  unfold decode_slot.
  destruct (Dict.mem "field" d); [|intros H; inversion H; constructor].
  intros H. repeat bind_ok H. apply mapR_Forall2 in H. clear E E0.
  induction H as [|x y xs ys Hxy _ IH]; constructor; auto.
  eapply decode_field_Field; eauto.
Qed.

(** ** What [marshal] emits *)

Lemma marshal_list_keys_slots key :
  In key marshal_list_keys -> In key slot_keys /\ key <> "field".
Proof.
  unfold marshal_list_keys. simpl. intros H.
  repeat (destruct H as [H|H];
          [subst key; split; [in_list|discriminate]|]).
  destruct H.
Qed.

Lemma marshal_value_slot d key :
  In key slot_keys ->
  marshal_value d key =
  (v <- (PDict d).[key] ;;
   items <- iter v ;;
   l <- mapR (encode key) items ;;
   Ok (PList l)).
Proof.
  unfold slot_keys. simpl. intros H.
  repeat (destruct H as [H|H]; [subst key; reflexivity|]).
  destruct H.
Qed.

Lemma marshal_value_other d key :
  ~ In key slot_keys -> marshal_value d key = (PDict d).[key].
Proof.
  intros Hn. unfold marshal_value.
  destruct (existsb (String.eqb key) marshal_list_keys) eqn:E.
  - apply existsb_exists in E as (x & Hx & Heq).
    apply String.eqb_eq in Heq. subst x.
    apply marshal_list_keys_slots in Hx as [Hx _]. contradiction.
  - destruct (String.eqb key "field") eqn:E'; [|reflexivity].
    apply String.eqb_eq in E'. subst key. exfalso. apply Hn. in_list.
Qed.

Lemma marshal_loop_frame d keys : forall struct struct' key,
  marshal_loop d keys struct = Ok struct' ->
  ~ In key keys ->
  Dict.get key struct' = Dict.get key struct.
Proof.
  induction keys as [|k keys IH]; simpl; intros struct struct' key H Hn.
  - now inversion H.
  - bind_ok H.
    rewrite (IH _ _ _ H) by (intros Hin; apply Hn; right; exact Hin).
    apply get_set_other. intros Heq. apply Hn. left. exact Heq.
Qed.

Lemma marshal_loop_emits d keys : forall struct struct' key,
  marshal_loop d keys struct = Ok struct' ->
  In key keys ->
  exists v, marshal_value d key = Ok v /\ Dict.get key struct' = Some v.
Proof.
  induction keys as [|k keys IH]; simpl; intros struct struct' key H Hin.
  - destruct Hin.
  - bind_ok H.
    destruct (in_dec string_dec key keys) as [Hk|Hk]; [eauto|].
    destruct Hin as [->|Hin]; [|contradiction].
    exists a. split; [exact E|].
    rewrite (marshal_loop_frame _ _ _ _ _ H Hk). apply get_set_same.
Qed.

Lemma marshal_loop_total d keys : forall struct,
  (forall key, In key keys -> exists v, marshal_value d key = Ok v) ->
  exists struct', marshal_loop d keys struct = Ok struct'.
Proof.
  induction keys as [|k keys IH]; simpl; intros struct H; [eauto|].
  destruct (H k) as [v Hv]; [auto|]. rewrite Hv. simpl. apply IH. auto.
Qed.

Lemma marshal_run self h :
  marshal self h =
  match marshal_loop (cell h (_config self)) (Dict.keys (cell h (_config self))) [] with
  | Ok struct => (Ok (PDict struct), h)
  | Raise e => (Raise e, h)
  end.
Proof.
  unfold marshal, mbind, load, lift, mret.
  destruct (marshal_loop _ _ _); reflexivity.
Qed.


Lemma marshal_value_of_list d key olist :
  In key slot_keys ->
  Dict.get key d = Some (PList olist) ->
  marshal_value d key = (l <- mapR (encode key) olist ;; Ok (PList l)).
Proof.
  intros Hin Hg. rewrite marshal_value_slot by exact Hin.
  unfold getitem. rewrite Hg. reflexivity.
Qed.

Lemma slot_has_decoder key :
  In key slot_keys -> exists decode, In (key, decode) slots.
Proof.
  rewrite <- slots_keys. intros H.
  apply in_map_iff in H as ([k dec] & Hk & Hin). simpl in Hk. subst k. eauto.
Qed.

Lemma field_in_slots : In ("field", decode_field) slots.
Proof. unfold slots. do 20 right. left. reflexivity. Qed.

Lemma Forall2_compose {A B C} (P : A -> B -> Prop) (Q : B -> C -> Prop) l1 l2 :
  Forall2 P l1 l2 -> forall l3, Forall2 Q l2 l3 ->
  Forall2 (fun x z => exists y, P x y /\ Q y z) l1 l3.
Proof.
  induction 1 as [|x y xs ys Hxy _ IH]; intros l3 H3; inversion H3; subst.
  - constructor.
  - constructor; eauto.
Qed.

(** After a successful [unmarshal] every slot holds the list its decoder
    gives on the caller's input. *)
Lemma unmarshal_Ok_slots config h db h' :
  config < next h ->
  unmarshal config h = (Ok db, h') ->
  _config db = config /\
  forall key decode, In (key, decode) slots ->
    exists olist,
      decode_slot decode key (cell h config) = Ok olist /\
      Dict.get key (cell h' config) = Some (PList olist).
Proof.
  intros Hlt Hrun.
  destruct (unmarshal_spec _ _ _ _ Hlt Hrun)
    as (_ & Hcfg & done & rest & Htab & Hdone & _ & Hrest).
  subst rest. rewrite app_nil_r in Htab. rewrite <- Htab in Hdone. auto.
Qed.

Lemma unmarshal_Ok_objects config h db h' :
  config < next h ->
  unmarshal config h = (Ok db, h') ->
  forall key decode, In (key, decode) slots ->
    exists olist,
      Dict.get key (cell h' config) = Some (PList olist) /\
      decode_slot decode key (cell h config) = Ok olist /\
      forallb is_object olist = true /\
      (Dict.mem key (cell h config) = false -> olist = []).
Proof.
  intros Hlt Hrun key decode Hin.
  destruct (unmarshal_Ok_slots _ _ _ _ Hlt Hrun) as (_ & Hslots).
  destruct (Hslots _ _ Hin) as (olist & Hd & Hg).
  exists olist. repeat split; auto.
  - eapply decode_slot_objects; eauto.
  - intros Hm. rewrite decode_slot_absent in Hd by exact Hm. now inversion Hd.
Qed.

(** ** [unmarshal] and [marshal] together *)

(** C9.  [Database.unmarshal] is not pure over its argument: the new
    Database holds the caller's dictionary itself, and after a successful
    call that dictionary binds every known array slot to the list of the
    entity objects decoded from it (the empty list for a slot the input
    lacks), no longer to raw wire records. *)
Theorem unmarshal_keeps_callers_dict config h db h' :
  config < next h ->
  unmarshal config h = (Ok db, h') ->
  _config db = config /\
  forall key decode, In (key, decode) slots ->
    exists olist,
      Dict.get key (cell h' config) = Some (PList olist) /\
      decode_slot decode key (cell h config) = Ok olist /\
      forallb is_object olist = true /\
      (Dict.mem key (cell h config) = false -> olist = []).
Proof.
  intros Hlt Hrun. split.
  - now destruct (unmarshal_Ok_slots _ _ _ _ Hlt Hrun).
  - now apply unmarshal_Ok_objects with (db := db).
Qed.

(** After a successful [unmarshal] the list of every slot can be encoded,
    once [Field.marshal] returns for field objects. *)
Lemma unmarshal_Ok_encodable config h db h' :
  config < next h ->
  unmarshal config h = (Ok db, h') ->
  (forall c args cfg, Field c = true ->
     exists r, Field_marshal (PObj c args cfg) = Ok r) ->
  forall key, In key slot_keys ->
    exists olist,
      Dict.get key (cell h' config) = Some (PList olist) /\
      (Dict.mem key (cell h config) = false -> olist = []) /\
      exists l, mapR (encode key) olist = Ok l.
Proof.
  intros Hlt Hrun Hfm key Hin.
  pose proof (unmarshal_Ok_objects _ _ _ _ Hlt Hrun) as Hslots.
  destruct (slot_has_decoder _ Hin) as [decode Hdec].
  destruct (Hslots _ _ Hdec) as (olist & Hg & Hd & Hobj & Hnil).
  exists olist. repeat split; auto.
  apply mapR_total. unfold encode.
  destruct (String.eqb key "field") eqn:Ef.
  - apply String.eqb_eq in Ef. subst key.
    destruct (Hslots _ _ field_in_slots) as (olist' & Hg' & Hd' & _).
    rewrite Hg in Hg'. inversion Hg'; subst olist'.
    apply decode_slot_fields in Hd'.
    eapply Forall_impl; [|exact Hd'].
    intros e (c & a & cf & -> & Hc). now apply Hfm.
  - apply Forall_forall. intros e He.
    rewrite forallb_forall in Hobj. specialize (Hobj e He).
    destruct e; try discriminate Hobj. simpl. eauto.
Qed.

(** [marshal] of an unmarshalled Database returns. *)
Lemma marshal_after_unmarshal config h db h' :
  config < next h ->
  unmarshal config h = (Ok db, h') ->
  (forall c args cfg, Field c = true ->
     exists r, Field_marshal (PObj c args cfg) = Ok r) ->
  exists struct,
    marshal db h' = (Ok (PDict struct), h') /\
    marshal_loop (cell h' config) (Dict.keys (cell h' config)) [] = Ok struct.
Proof.
  intros Hlt Hrun Hfm.
  destruct (unmarshal_Ok_slots _ _ _ _ Hlt Hrun) as (Hcfg & _).
  pose proof (unmarshal_Ok_encodable _ _ _ _ Hlt Hrun Hfm) as Hbound.
  rewrite marshal_run, Hcfg.
  destruct (marshal_loop_total (cell h' config) (Dict.keys (cell h' config)) [])
    as [struct Hloop].
  { intros key Hin.
    destruct (in_dec string_dec key slot_keys) as [Hs|Hs].
    - destruct (Hbound key Hs) as (olist & Hg & _ & l & Hl).
      rewrite (marshal_value_of_list _ _ _ Hs Hg), Hl. simpl. eauto.
    - rewrite marshal_value_other by exact Hs.
      apply In_keys_get in Hin as [v Hv]. unfold getitem. rewrite Hv. eauto. }
  rewrite Hloop. eauto.
Qed.

(** C10.  After a successful [unmarshal] each of the known array-valued
    slot keys is bound in the configuration to a list, the empty list when
    the input lacked the key, and a following [marshal] emits every one of
    these keys, with an empty array for the slots the input lacked. *)
Theorem unmarshal_binds_every_slot config h db h' :
  config < next h ->
  unmarshal config h = (Ok db, h') ->
  (forall c args cfg, Field c = true ->
     exists r, Field_marshal (PObj c args cfg) = Ok r) ->
  (forall key, In key slot_keys ->
     exists olist,
       Dict.get key (cell h' (_config db)) = Some (PList olist) /\
       (Dict.mem key (cell h config) = false -> olist = [])) /\
  exists struct,
    marshal db h' = (Ok (PDict struct), h') /\
    forall key, In key slot_keys ->
      exists jlist,
        Dict.get key struct = Some (PList jlist) /\
        (Dict.mem key (cell h config) = false -> jlist = []).
Proof.
  intros Hlt Hrun Hfm.
  destruct (unmarshal_Ok_slots _ _ _ _ Hlt Hrun) as (Hcfg & _).
  pose proof (unmarshal_Ok_encodable _ _ _ _ Hlt Hrun Hfm) as Hbound.
  rewrite Hcfg. split.
  { intros key Hin. destruct (Hbound key Hin) as (olist & Hg & Hnil & _). eauto. }
  destruct (marshal_after_unmarshal _ _ _ _ Hlt Hrun Hfm)
    as (struct & Hm & Hloop).
  exists struct. split; [exact Hm|].
  intros key Hin. destruct (Hbound key Hin) as (olist & Hg & Hnil & l & Hl).
  destruct (marshal_loop_emits _ _ _ _ key Hloop) as (v & Hv & Hgv).
  { eapply get_In_keys; eauto. }
  rewrite (marshal_value_of_list _ _ _ Hin Hg), Hl in Hv. simpl in Hv.
  inversion Hv; subst v. exists l. split; [exact Hgv|].
  intros Hm'. rewrite (Hnil Hm') in Hl. simpl in Hl. now inversion Hl.
Qed.

(** C5.  [marshal] after [unmarshal] keeps the order of the elements of
    every slot present in the input: the emitted list of the slot has one
    record per raw record, and the i-th emitted record is the encoding of
    the entity decoded from the i-th raw record.  The call of [marshal]
    returns once [Field.marshal] does for field objects. *)
Theorem marshal_unmarshal_preserves_order config h db h1 key decode raw :
  config < next h ->
  unmarshal config h = (Ok db, h1) ->
  In (key, decode) slots ->
  Dict.get key (cell h config) = Some raw ->
  (forall struct h2,
     marshal db h1 = (Ok (PDict struct), h2) ->
     exists items out,
       iter raw = Ok items /\
       Dict.get key struct = Some (PList out) /\
       Forall2 (fun record emitted =>
                  exists entity,
                    decode record = Ok entity /\ encode key entity = Ok emitted)
               items out) /\
  ((forall c args cfg, Field c = true ->
      exists r, Field_marshal (PObj c args cfg) = Ok r) ->
   exists struct, marshal db h1 = (Ok (PDict struct), h1)).
Proof.
  intros Hlt Hrun Hin Hraw. split.
  - intros struct h2 Hm.
    destruct (unmarshal_Ok_slots _ _ _ _ Hlt Hrun) as (Hcfg & Hslots).
    destruct (Hslots _ _ Hin) as (olist & Hd & Hg).
    destruct (decode_slot_present _ _ _ _ _ Hraw Hd) as (items & Hit & Hmap).
    assert (Hk : In key slot_keys).
    { rewrite <- slots_keys. change key with (fst (key, decode)).
      now apply in_map. }
    rewrite marshal_run, Hcfg in Hm.
    destruct (marshal_loop _ _ _) as [struct'|] eqn:Hloop; inversion Hm; subst.
    destruct (marshal_loop_emits _ _ _ _ key Hloop) as (v & Hv & Hgv).
    { eapply get_In_keys; eauto. }
    rewrite (marshal_value_of_list _ _ _ Hk Hg) in Hv. bind_ok Hv.
    inversion Hv; subst v.
    exists items, a. repeat split; auto.
    apply mapR_Forall2 in Hmap, E.
    exact (Forall2_compose _ _ _ _ Hmap _ E).
  - intros Hfm.
    destruct (marshal_after_unmarshal _ _ _ _ Hlt Hrun Hfm) as (struct & Hm & _).
    eauto.
Qed.

(** C3.  When [unmarshal] fails no document is returned, but the caller's
    wire document is not left as it was: the slots gone through before the
    failing one stay rebound to their decoded entity lists, while every
    other key, the failing slot and the later ones among them, keeps its
    binding, and so does every other dictionary of the heap. *)
Theorem unmarshal_failure_leaves_converted_prefix config h e h' :
  config < next h ->
  unmarshal config h = (Raise e, h') ->
  exists done rest,
    slots = done ++ rest /\
    (forall key decode, In (key, decode) done ->
       exists olist,
         decode_slot decode key (cell h config) = Ok olist /\
         Dict.get key (cell h' config) = Some (PList olist)) /\
    (forall key, ~ In key (map fst done) ->
       Dict.get key (cell h' config) = Dict.get key (cell h config)) /\
    (forall r', r' < next h -> r' <> config -> cell h' r' = cell h r') /\
    ((done = [] /\ Dict.get "database-name" (cell h config) = None /\
      e = KeyError "database-name") \/
     exists key decode rest',
       rest = (key, decode) :: rest' /\
       decode_slot decode key (cell h config) = Raise e).
Proof.
  intros Hlt Hrun.
  destruct (unmarshal_spec _ _ _ _ Hlt Hrun)
    as (Hframe & _ & done & rest & Htab & Hdone & Hother & Hrest).
  exists done, rest. repeat split; auto.
Qed.

(** ** Getters *)

Lemma slot_getter_run key self h :
  slot_getter key self h =
  match Dict.get key (cell h (_config self)) with
  | Some v => (Ok v, h)
  | None => (Ok PNone, h)
  end.
Proof.
  unfold slot_getter, config_contains, config_getitem, mbind, load, lift, mret,
    Dict.mem, getitem.
  cbv beta iota.
  destruct (Dict.get key (cell h (_config self))) eqn:E; cbv beta iota;
    rewrite ?E; reflexivity.
Qed.

Lemma getters_slot_getter key getter :
  In (key, getter) getters -> getter = slot_getter key /\ In key slot_keys.
Proof.
  unfold getters. simpl. intros H.
  repeat (destruct H as [H|H];
          [inversion H; subst; split; [reflexivity|in_list]|]).
  destruct H.
Qed.

(** ** Discrimination of the variants *)

(** C1.  A merge blackout tagged [recurring] decodes to the all-day kind
    when its period is None and to the recurring-duration kind, built from
    the start time and the duration of the period, when its period is a
    record with the key [duration], whether or not [end-time] is there as
    well; the period with [end-time] and no [duration] gives the start-end
    kind.  The tag is tested first: with a tag that is neither [recurring]
    nor [once] the period is not looked at. *)
Theorem recurring_blackout_resolution blackout ty :
  blackout.["blackout-type"] = Ok ty ->
  (ty = PStr "recurring" ->
   blackout.["period"] = Ok PNone ->
   decode_merge_blackout blackout =
   (a <- getitems blackout ["merge-priority"; "limit"; "day"] ;;
    new MergeBlackout_recurringAllDay a)) /\
  (ty = PStr "recurring" ->
   forall p,
   blackout.["period"] = Ok (PDict p) ->
   Dict.mem "duration" p = true ->
   decode_merge_blackout blackout =
   (a <- getitems blackout ["merge-priority"; "limit"; "day"] ;;
    b <- getitems (PDict p) ["start-time"; "duration"] ;;
    new MergeBlackout_recurringDuration (a ++ b))) /\
  (ty = PStr "recurring" ->
   forall p,
   blackout.["period"] = Ok (PDict p) ->
   Dict.mem "duration" p = false ->
   Dict.mem "end-time" p = true ->
   decode_merge_blackout blackout =
   (a <- getitems blackout ["merge-priority"; "limit"; "day"] ;;
    b <- getitems (PDict p) ["start-time"; "end-time"] ;;
    new MergeBlackout_recurringStartEnd (a ++ b))) /\
  (str_eq ty "recurring" = false ->
   str_eq ty "once" = false ->
   decode_merge_blackout blackout =
   Raise (UnexpectedManagementAPIResponse "Unparseable merge blackout period")).
Proof.
  intros Hty. unfold decode_merge_blackout, blackout_is. rewrite Hty.
  repeat split.
  - intros -> Hp. simpl. rewrite Hp. reflexivity.
  - intros -> p Hp Hd. simpl. rewrite Hp. simpl. rewrite Hd. reflexivity.
  - intros -> p Hp Hd He. simpl. rewrite Hp. simpl. rewrite Hd, He. reflexivity.
  - intros Hr Ho. simpl. rewrite Hr, Ho. reflexivity.
Qed.

(** X10.  A period record with neither [duration] nor [end-time] matches no
    rule, under either tag. *)
Lemma shapeless_period_unparseable blackout tag p :
  tag = "recurring" \/ tag = "once" ->
  blackout.["blackout-type"] = Ok (PStr tag) ->
  blackout.["period"] = Ok (PDict p) ->
  Dict.mem "duration" p = false ->
  Dict.mem "end-time" p = false ->
  decode_merge_blackout blackout =
  Raise (UnexpectedManagementAPIResponse "Unparseable merge blackout period").
Proof.
  intros Htag Hty Hp Hd He. unfold decode_merge_blackout, blackout_is.
  rewrite Hty, Hp. destruct Htag as [-> | ->]; simpl; rewrite Hd, He; reflexivity.
Qed.

(** X11.  A backup record whose tag is none of the six kinds is unparseable. *)
Lemma unknown_backup_type_unparseable d tag :
  Dict.get "backup-type" d = Some tag ->
  backup_kind tag = None ->
  decode_database_backup (PDict d) =
  Raise (UnexpectedManagementAPIResponse "Unparseable backup").
Proof.
  intros Hg Hk. unfold decode_database_backup. simpl.
  unfold Dict.mem. destruct (Dict.get "incremental" d); simpl;
    rewrite Hg; simpl; rewrite Hk; reflexivity.
Qed.

(** X6.  A record that a decoder rejects makes the whole of [unmarshal] fail:
    no document comes back without it. *)
Lemma unmarshal_fails_on_rejected_record config h key decode raw items e :
  config < next h ->
  In (key, decode) slots ->
  Dict.get key (cell h config) = Some raw ->
  iter raw = Ok items ->
  mapR decode items = Raise e ->
  exists e' h', unmarshal config h = (Raise e', h').
Proof.
  intros Hlt Hin Hraw Hit Hmap.
  destruct (unmarshal config h) as [[db|e'] h'] eqn:Hrun; [|eauto].
  destruct (unmarshal_Ok_slots _ _ _ _ Hlt Hrun) as (_ & Hslots).
  destruct (Hslots _ _ Hin) as (olist & Hd & _).
  destruct (decode_slot_present _ _ _ _ _ Hraw Hd) as (items' & Hit' & Hmap').
  congruence.
Qed.

(** C7.  In the field slot the presence of [field-path] comes first and
    gives a PathField whatever the name is; without it the empty name
    gives the WordQuery, and any other name a RootField. *)
Theorem field_discrimination d nm :
  Dict.get "field-name" d = Some nm ->
  (forall e, decode_field (PDict d) = Ok e ->
             class_of e = Some (field_class d nm)) /\
  (Dict.mem "field-path" d = true ->
   field_class d nm = PathField /\
   decode_field (PDict d) =
   (raw <- (PDict d).["field-path"] ;;
    items <- iter raw ;;
    paths <- mapR decode_field_path items ;;
    temp <- new PathField [nm; PList paths] ;;
    call_unmarshal temp (PDict d))) /\
  (Dict.mem "field-path" d = false ->
   nm = PStr "" ->
   field_class d nm = WordQuery /\
   decode_field (PDict d) =
   (temp <- new WordQuery [PBool (include_root d)] ;;
    call_unmarshal temp (PDict d))) /\
  (Dict.mem "field-path" d = false ->
   str_eq nm "" = false ->
   field_class d nm = RootField /\
   decode_field (PDict d) =
   (temp <- new RootField [nm; PBool (include_root d)] ;;
    call_unmarshal temp (PDict d))).
Proof.
  intros Hn.
  assert (Hroot : forall c args,
            (has_root <- contains "include-root" (PDict d) ;;
             root <- (if has_root : bool
                      then r <- (PDict d).["include-root"] ;; Ok (str_eq r "true")
                      else Ok false) ;;
             nm' <- (PDict d).["field-name"] ;;
             if str_eq nm' "" then new WordQuery [PBool root]
             else new c (args root)) =
            if str_eq nm "" then new WordQuery [PBool (include_root d)]
            else new c (args (include_root d))).
  { intros c args. unfold include_root. simpl. unfold Dict.mem.
    destruct (Dict.get "include-root" d); simpl; rewrite Hn; reflexivity. }
  split; [|split; [|split]].
  - intros e He. apply decode_field_class_of in He as (nm' & Hn' & Hc).
    congruence.
  - intros Hp. split; [unfold field_class; now rewrite Hp|].
    unfold decode_field. simpl. rewrite Hn, Hp. simpl.
    unfold Dict.mem in Hp.
    destruct (Dict.get "field-path" d) as [raw|]; [simpl|discriminate].
    destruct (iter raw); [simpl|reflexivity].
    destruct (mapR decode_field_path a); reflexivity.
  - intros Hp ->. split; [unfold field_class; now rewrite Hp|].
    pose proof (Hroot RootField (fun root => [PStr ""; PBool root])) as Hr.
    cbv beta in Hr. unfold decode_field.
    change ((PDict d).["field-name"]) with
      (match Dict.get "field-name" d with
       | Some x => Ok x | None => Raise (KeyError "field-name") end) at 1.
    change (contains "field-path" (PDict d)) with (Ok (Dict.mem "field-path" d)).
    rewrite Hn, Hp, !rbind_Ok. cbv iota. rewrite Hr. reflexivity.
  - intros Hp Hs. split; [unfold field_class; now rewrite Hp, Hs|].
    pose proof (Hroot RootField (fun root => [nm; PBool root])) as Hr.
    cbv beta in Hr. unfold decode_field.
    change ((PDict d).["field-name"]) with
      (match Dict.get "field-name" d with
       | Some x => Ok x | None => Raise (KeyError "field-name") end) at 1.
    change (contains "field-path" (PDict d)) with (Ok (Dict.mem "field-path" d)).
    rewrite Hn, Hp, !rbind_Ok. cbv iota. rewrite Hr, Hs. reflexivity.
Qed.


(** ** Fields *)

Lemma mapR_app {A B} (f : A -> result B) l1 l2 r1 r2 :
  mapR f l1 = Ok r1 -> mapR f l2 = Ok r2 -> mapR f (l1 ++ l2) = Ok (r1 ++ r2).
Proof.
  revert r1. induction l1 as [|x xs IH]; simpl; intros r1 H1 H2.
  - inversion H1. exact H2.
  - repeat bind_ok H1. inversion H1; subst.
    rewrite (IH _ eq_refl H2). reflexivity.
Qed.

Lemma assert_type_Ok value expected v :
  assert_type value expected = Ok v -> v = value.
Proof.
  unfold assert_type. destruct value; try discriminate.
  destruct (expected c); congruence.
Qed.

Lemma add_to_property_list_run self slot element expected h :
  add_to_property_list self slot element expected h =
  let d := cell h (_config self) in
  match (_ <- assert_type element expected ;;
         items <- slot_items slot d ;;
         key <- natural_key slot element ;;
         keys <- mapR (natural_key slot) items ;;
         if existsb (key_eqb key) keys then Raise DuplicateKey else Ok items)
  with
  | Ok items =>
      (Ok self,
       {| next := next h;
          cell := fun r' => if Nat.eqb r' (_config self)
                            then Dict.set slot (PList (items ++ [element])) d
                            else cell h r' |})
  | Raise e => (Raise e, h)
  end.
Proof.
  unfold add_to_property_list, config_setitem, mbind, lift, load, store, mret.
  cbv zeta.
  destruct (assert_type element expected); [|reflexivity].
  destruct (slot_items slot _); [|reflexivity].
  destruct (natural_key slot element); [|reflexivity].
  rewrite !rbind_Ok.
  destruct (mapR (natural_key slot) a0); [|reflexivity].
  rewrite rbind_Ok. destruct (existsb _ _); reflexivity.
Qed.

Lemma add_field_run self field h :
  add_field self field h =
  match (value <- assert_type field Field ;;
         n <- field_name value ;;
         if is_None n
         then Raise (ValidationError "Fields must have a non-empty name")
         else Ok tt)
  with
  | Ok _ => add_to_property_list self "field" field Field h
  | Raise e => (Raise e, h)
  end.
Proof.
  unfold add_field, mbind, lift.
  destruct (assert_type field Field); [|reflexivity]. simpl.
  destruct (field_name a); [|reflexivity]. simpl.
  destruct (is_None a0); reflexivity.
Qed.

(** C8.  With the property list of the specification, a second field
    with the name of a field added before is refused with the
    duplicate-key error, and the heap, so the field list and its length,
    is after the refused call what it was before. *)
Theorem duplicate_field_rejected self self1 f1 c2 args2 config2 n h h1 :
  Field c2 = true ->
  n <> "" ->
  field_name f1 = Ok (PStr n) ->
  field_name (PObj c2 args2 config2) = Ok (PStr n) ->
  add_field self f1 h = (Ok self1, h1) ->
  add_field self1 (PObj c2 args2 config2) h1 = (Raise DuplicateKey, h1) /\
  exists items,
    Dict.get "field" (cell h1 (_config self1)) = Some (PList (items ++ [f1])).
Proof.
  intros Hc Hne Hn1 Hn2 Hadd.
  rewrite add_field_run in Hadd.
  destruct (value <- assert_type f1 Field ;; _) eqn:Hpre;
    [|discriminate Hadd].
  rewrite add_to_property_list_run in Hadd. cbv zeta in Hadd.
  match type of Hadd with
  | match ?m with _ => _ end = _ =>
      destruct m as [items|] eqn:Hlist; [|discriminate Hadd]
  end.
  clear Hpre.
  destruct (assert_type f1 Field) as [v1|]; [|discriminate Hlist].
  rewrite rbind_Ok in Hlist.
  destruct (slot_items "field" (cell h (_config self))) as [items0|];
    [|discriminate Hlist].
  rewrite rbind_Ok in Hlist.
  destruct (natural_key "field" f1) as [key1|]; [|discriminate Hlist].
  rewrite rbind_Ok in Hlist.
  destruct (mapR (natural_key "field") items0) as [keys0|] eqn:Hkeys;
    [|discriminate Hlist].
  rewrite rbind_Ok in Hlist.
  destruct (existsb (key_eqb key1) keys0); inversion Hlist; subst items0.
  injection Hadd as Hself Hheap. subst self1.
  assert (Hget : Dict.get "field" (cell h1 (_config self))
                 = Some (PList (items ++ [f1]))).
  { rewrite <- Hheap. simpl. rewrite Nat.eqb_refl. apply get_set_same. }
  clear Hheap. split; [|eauto].
  rewrite add_field_run. simpl assert_type. rewrite Hc, rbind_Ok, Hn2.
  simpl. rewrite add_to_property_list_run. cbv zeta.
  simpl assert_type. rewrite Hc, rbind_Ok.
  unfold slot_items, Dict.mem, getitem. rewrite Hget.
  change (natural_key "field") with field_name in *.
  rewrite rbind_Ok.
  change (iter (PList (items ++ [f1]))) with (Ok (items ++ [f1])).
  rewrite rbind_Ok, Hn2, rbind_Ok.
  rewrite (mapR_app _ items [f1] keys0 [PStr n] Hkeys)
    by (simpl; rewrite Hn1; reflexivity).
  rewrite rbind_Ok, existsb_app. simpl.
  rewrite String.eqb_refl, orb_true_r. reflexivity.
Qed.

Lemma set_word_query_run self word_query h :
  set_word_query self word_query h =
  let d := cell h (_config self) in
  let fields := match Dict.get "field" d with
                | Some v => v
                | None => PList []
                end in
  match (items <- iter fields ;;
         changed <- set_word_query_loop items word_query false ;;
         if changed : bool then Ok fields
         else match fields with
              | PList l =>
                  wq <- assert_type word_query WordQuery_class ;;
                  Ok (PList (l ++ [wq]))
              | _ => Raise AttributeError
              end)
  with
  | Ok fields' =>
      (Ok tt,
       {| next := next h;
          cell := fun r' => if Nat.eqb r' (_config self)
                            then Dict.set "field" fields' d
                            else cell h r' |})
  | Raise e => (Raise e, h)
  end.
Proof.
  unfold set_word_query, config_contains, config_getitem, config_setitem,
    mbind, load, store, lift, mret, Dict.mem, getitem.
  cbv beta zeta.
  destruct (Dict.get "field" (cell h (_config self))) as [v|] eqn:Hg;
    cbv beta iota; rewrite ?Hg.
  - destruct (iter v) as [items|]; [|reflexivity]. rewrite !rbind_Ok.
    destruct (set_word_query_loop items word_query false) as [[|]|];
      try reflexivity.
    rewrite ?rbind_Ok. destruct v; reflexivity.
  - simpl. destruct (assert_type word_query WordQuery_class); reflexivity.
Qed.

(** C4.  Two calls of [set_word_query] on a fresh Database never leave
    the second value alone in the field slot.  When [field_name()] of the
    first value is the empty string, the second call reaches the
    assignment to the unbound name [items] and raises, the slot staying
    at the first value; when it is anything else (None, as the other
    methods test it, among them), nothing is found to replace and the
    second value is appended after the first. *)
Theorem set_word_query_twice nm host h args1 config1 args2 config2 :
  let wq1 := PObj WordQuery args1 config1 in
  let wq2 := PObj WordQuery args2 config2 in
  let run :=
    (db <~ Database_init nm host ;;
     _ <~ set_word_query db wq1 ;;
     set_word_query db wq2) h in
  let slot := Dict.get "field" (cell (snd run) (next h)) in
  match field_name wq1 with
  | Ok n =>
      if str_eq n ""
      then fst run = Raise (NameError "items") /\ slot = Some (PList [wq1])
      else fst run = Ok tt /\ slot = Some (PList [wq1; wq2])
  | Raise e => fst run = Raise e /\ slot = Some (PList [wq1])
  end.
Proof.
  intros wq1 wq2 run slot.
  pose (db0 := {| name := PStr nm; etag := PNone; hostname := PStr host;
                  _config := next h |}).
  destruct (Database_init nm host h) as [r0 h0] eqn:Hinit.
  assert (Hr0 : r0 = Ok db0) by (inversion Hinit; reflexivity).
  assert (Hc0 : Dict.get "field" (cell h0 (next h)) = None).
  { inversion Hinit. simpl. now rewrite Nat.eqb_refl. }
  subst r0.
  destruct (set_word_query db0 wq1 h0) as [r1 h1] eqn:H1.
  rewrite set_word_query_run in H1. cbv zeta in H1.
  change (_config db0) with (next h) in H1. rewrite Hc0 in H1.
  simpl in H1. injection H1 as Hr1 Hh1. subst r1.
  assert (Hc1 : Dict.get "field" (cell h1 (next h)) = Some (PList [wq1])).
  { rewrite <- Hh1. simpl. rewrite Nat.eqb_refl. apply get_set_same. }
  assert (Hrun : run = set_word_query db0 wq2 h1).
  { subst run. unfold mbind. rewrite Hinit.
    rewrite set_word_query_run. cbv zeta.
    change (_config db0) with (next h). rewrite Hc0. simpl.
    now rewrite Hh1. }
  clear Hinit Hh1 Hc0. subst slot. rewrite Hrun. clear Hrun run.
  rewrite set_word_query_run. cbv zeta.
  change (_config db0) with (next h). rewrite Hc1.
  change (iter (PList [wq1])) with (Ok [wq1]). rewrite rbind_Ok.
  simpl set_word_query_loop.
  destruct (field_name wq1) as [n|e]; [rewrite rbind_Ok|simpl; auto].
  destruct (str_eq n ""); simpl; [auto|].
  rewrite Nat.eqb_refl. split; [reflexivity|apply get_set_same].
Qed.


(** C2.  A one-time blackout whose period is None matches no rule, yet the
    decoder does not reach its last branch: the test [in] on the period
    raises a type error first, for the record alone and for a document
    that holds it. *)
Theorem once_blackout_with_null_period_raises_TypeError rest :
  decode_merge_blackout
    (PDict (("blackout-type", PStr "once") :: ("period", PNone) :: rest))
  = Raise TypeError /\
  fst (unmarshal 0 (heap_of [Sample.once_null_doc])) = Raise TypeError.
Proof. split; reflexivity. Qed.


(** ** More about [unmarshal] *)

Lemma keys_set (k : string) (v : pyval) (d : dict) :
  Dict.keys (Dict.set k v d) =
  if Dict.mem k d then Dict.keys d else Dict.keys d ++ [k].
Proof.
  unfold Dict.mem, Dict.keys.
  induction d as [|[k' v'] d IH]; simpl; [reflexivity|].
  destruct (String.eqb k k') eqn:E; simpl.
  - apply String.eqb_eq in E. now subst k'.
  - rewrite IH. destruct (Dict.get k d); reflexivity.
Qed.

Lemma mem_set_other (k k' : string) (v : pyval) (d : dict) :
  k <> k' -> Dict.mem k' (Dict.set k v d) = Dict.mem k' d.
Proof. intros H. unfold Dict.mem. now rewrite get_set_other. Qed.

Lemma filter_absent_ext (d1 d2 : dict) (ks : list string) :
  (forall k, In k ks -> Dict.mem k d1 = Dict.mem k d2) ->
  filter (fun k => negb (Dict.mem k d1)) ks =
  filter (fun k => negb (Dict.mem k d2)) ks.
Proof.
  induction ks as [|k ks IH]; simpl; intros H; [reflexivity|].
  rewrite (H k) by (left; reflexivity).
  rewrite IH by (intros k' Hk'; apply H; right; exact Hk'). reflexivity.
Qed.

Lemma unmarshal_slots_keys db table :
  NoDup (map fst table) ->
  forall h u h',
  unmarshal_slots db table h = (Ok u, h') ->
  Dict.keys (cell h' (_config db)) =
  Dict.keys (cell h (_config db)) ++
  filter (fun k => negb (Dict.mem k (cell h (_config db)))) (map fst table).
Proof.
  induction table as [|[key decode] table IH]; intros Hnd h u h' Hrun.
  - simpl in Hrun. inversion Hrun; subst. simpl. now rewrite app_nil_r.
  - simpl in Hnd. inversion Hnd as [|? ? Hnotin Hnd']; subst.
    simpl in Hrun. unfold mbind in Hrun. rewrite unmarshal_slot_run in Hrun.
    destruct (decode_slot decode key (cell h (_config db))) as [olist|e];
      [|discriminate Hrun].
    apply IH in Hrun; [|exact Hnd']. simpl in Hrun.
    rewrite Nat.eqb_refl in Hrun. rewrite Hrun, keys_set. simpl.
    rewrite (filter_absent_ext
               (Dict.set key (PList olist) (cell h (_config db)))
               (cell h (_config db)) (map fst table)).
    + destruct (Dict.mem key (cell h (_config db))); simpl;
        [reflexivity|now rewrite <- app_assoc].
    + intros k Hk. apply mem_set_other. intros ->. contradiction.
Qed.

(** The records of the slots are dictionaries: anything else is refused
    by the first subscript. *)
Lemma slot_decoder_needs_dict key decode x :
  In (key, decode) slots ->
  (forall d, x <> PDict d) ->
  decode x = Raise TypeError.
Proof.
  unfold slots. simpl. intros Hin Hx.
  assert (Hb : decode_database_backup x = Raise TypeError).
  { unfold decode_database_backup.
    destruct x; try reflexivity; simpl.
    - destruct (String.index 0 "incremental" s); reflexivity.
    - destruct (existsb (fun x => str_eq x "incremental") l); reflexivity.
    - exfalso. now apply (Hx d). }
  repeat (destruct Hin as [Hin|Hin];
          [inversion Hin; subst; clear Hin;
           first [ exact Hb
                 | destruct x; try reflexivity; exfalso; eapply Hx; reflexivity ]
          |]).
  destruct Hin.
Qed.

Lemma decode_slot_objects_again key decode d olist :
  In (key, decode) slots ->
  Dict.get key d = Some (PList olist) ->
  forallb is_object olist = true ->
  decode_slot decode key d =
  match olist with [] => Ok [] | _ :: _ => Raise TypeError end.
Proof.
  intros Hin Hg Hobj. unfold decode_slot, Dict.mem, getitem. rewrite Hg.
  simpl. destruct olist as [|x rest]; [reflexivity|]. simpl.
  simpl in Hobj. apply andb_true_iff in Hobj as [Hx _].
  rewrite (slot_decoder_needs_dict _ _ x Hin); [reflexivity|].
  intros d' ->. discriminate Hx.
Qed.

(** X1.  A document without its name: the call raises before any slot is
    touched, and the caller's dictionary is as it was. *)
Theorem unmarshal_without_name config h :
  config < next h ->
  Dict.get "database-name" (cell h config) = None ->
  exists h',
    unmarshal config h = (Raise (KeyError "database-name"), h') /\
    forall r, r < next h -> cell h' r = cell h r.
Proof.
  intros Hlt Hn. rewrite unmarshal_run.
  unfold Database_init, mbind, alloc, mret. cbn [snd cell].
  assert (Hne : Nat.eqb config (next h) = false) by (apply Nat.eqb_neq; lia).
  rewrite Hne, Hn. eexists. split; [reflexivity|].
  intros r Hr. cbn [cell].
  assert (Nat.eqb r (next h) = false) as -> by (apply Nat.eqb_neq; lia).
  reflexivity.
Qed.

Lemma unmarshal_Ok_name config h db h' :
  config < next h ->
  unmarshal config h = (Ok db, h') ->
  Dict.get "database-name" (cell h config) = Some (name db) /\
  etag db = PNone /\
  Dict.keys (cell h' config) =
  Dict.keys (cell h config) ++
  filter (fun k => negb (Dict.mem k (cell h config))) slot_keys.
Proof.
  intros Hlt Hrun. rewrite unmarshal_run in Hrun.
  unfold Database_init, mbind, alloc, mret in Hrun. cbn [snd cell] in Hrun.
  assert (Hne : Nat.eqb config (next h) = false) by (apply Nat.eqb_neq; lia).
  rewrite Hne in Hrun.
  destruct (Dict.get "database-name" (cell h config)) as [nm|];
    [|discriminate Hrun].
  cbv zeta in Hrun.
  match type of Hrun with
  | context [unmarshal_slots ?db0 ?t ?h0] =>
      destruct (unmarshal_slots db0 t h0) as [[u|e] h1] eqn:Hs;
      [|discriminate Hrun]
  end.
  apply unmarshal_slots_keys in Hs; [|rewrite slots_keys; apply NoDup_slot_keys].
  cbn [_config cell] in Hs. rewrite Hne, slots_keys in Hs.
  inversion Hrun; subst. auto.
Qed.

Lemma unmarshal_Ok_other_keys config h db h' :
  config < next h ->
  unmarshal config h = (Ok db, h') ->
  forall key, ~ In key slot_keys ->
    Dict.get key (cell h' config) = Dict.get key (cell h config).
Proof.
  intros Hlt Hrun key Hk.
  destruct (unmarshal_spec _ _ _ _ Hlt Hrun)
    as (_ & _ & done & rest & Htab & _ & Hother & Hrest).
  subst rest. rewrite app_nil_r in Htab. apply Hother.
  rewrite <- Htab, slots_keys. exact Hk.
Qed.

(** X2.  On success the Database is named after the document, every key that
    is not a slot keeps its value, and the other dictionaries of the heap
    are not touched. *)
Theorem unmarshal_keeps_options config h db h' :
  config < next h ->
  unmarshal config h = (Ok db, h') ->
  Dict.get "database-name" (cell h config) = Some (name db) /\
  etag db = PNone /\
  (forall key, ~ In key slot_keys ->
     Dict.get key (cell h' config) = Dict.get key (cell h config)) /\
  (forall r, r < next h -> r <> config -> cell h' r = cell h r).
Proof.
  intros Hlt Hrun.
  destruct (unmarshal_Ok_name _ _ _ _ Hlt Hrun) as (Hn & He & _).
  repeat split; auto.
  - now apply unmarshal_Ok_other_keys with (db := db).
  - now destruct (unmarshal_spec _ _ _ _ Hlt Hrun) as (Hframe & _).
Qed.

(** X3.  On success the dictionary has the keys of the document, in their
    order, followed by the slot keys the document lacked, in the order of
    the slots. *)
Theorem unmarshal_appends_missing_slots config h db h' :
  config < next h ->
  unmarshal config h = (Ok db, h') ->
  Dict.keys (cell h' config) =
  Dict.keys (cell h config) ++
  filter (fun k => negb (Dict.mem k (cell h config))) slot_keys.
Proof.
  intros Hlt Hrun. now destruct (unmarshal_Ok_name _ _ _ _ Hlt Hrun) as (_ & _ & Hk).
Qed.

(** X8.  A record that is not a dictionary is refused with a type error by
    the decoder of every slot. *)
Theorem slot_records_must_be_dicts key decode x :
  In (key, decode) slots ->
  (forall d, x <> PDict d) ->
  decode x = Raise TypeError.
Proof. apply slot_decoder_needs_dict. Qed.

(** X4.  [unmarshal] cannot be run again on the dictionary it has converted:
    as soon as one slot holds an entity the second call raises a type
    error, the entity not being a record. *)
Theorem unmarshal_twice_raises config h db h1 key olist :
  config < next h ->
  unmarshal config h = (Ok db, h1) ->
  In key slot_keys ->
  Dict.get key (cell h1 config) = Some (PList olist) ->
  olist <> [] ->
  exists h2, unmarshal config h1 = (Raise TypeError, h2).
Proof.
  intros Hlt Hrun Hkey Hg Hne.
  pose proof (unmarshal_Ok_objects _ _ _ _ Hlt Hrun) as Hobj.
  assert (Hlt1 : config < next h1).
  { rewrite unmarshal_run in Hrun.
    unfold Database_init, mbind, alloc, mret in Hrun. cbn [snd cell] in Hrun.
    destruct (Dict.get "database-name" _); [|discriminate Hrun].
    cbv zeta in Hrun.
    match type of Hrun with
    | context [unmarshal_slots ?db0 ?t ?h0] =>
        destruct (unmarshal_slots db0 t h0) as [[u|e] h0'] eqn:Hs;
        [|discriminate Hrun]
    end.
    apply unmarshal_slots_spec in Hs;
      [|rewrite slots_keys; apply NoDup_slot_keys].
    destruct Hs as (Hnext & _). inversion Hrun; subst.
    rewrite Hnext. simpl. lia. }
  assert (Hdec : forall k dec, In (k, dec) slots ->
            decode_slot dec k (cell h1 config) = Ok [] \/
            decode_slot dec k (cell h1 config) = Raise TypeError).
  { intros k dec Hin.
    destruct (Hobj _ _ Hin) as (l & Hgl & _ & Hol & _).
    rewrite (decode_slot_objects_again _ _ _ _ Hin Hgl Hol).
    destruct l; auto. }
  destruct (unmarshal config h1) as [[db2|e] h2] eqn:Hrun2.
  - exfalso.
    destruct (unmarshal_Ok_slots _ _ _ _ Hlt1 Hrun2) as (_ & Hslots).
    destruct (slot_has_decoder _ Hkey) as [dec Hin].
    destruct (Hslots _ _ Hin) as (l2 & Hd2 & _).
    destruct (Hobj _ _ Hin) as (l & Hgl & _ & Hol & _).
    rewrite Hg in Hgl. inversion Hgl; subst l.
    rewrite (decode_slot_objects_again _ _ _ _ Hin Hg Hol) in Hd2.
    destruct olist; [now apply Hne|discriminate Hd2].
  - exists h2. f_equal. f_equal.
    destruct (unmarshal_spec _ _ _ _ Hlt1 Hrun2)
      as (_ & _ & done & rest & Htab & _ & _ & Hrest).
    destruct Hrest as [(_ & Hnone & _)|(k & dec & rest' & Hr & Hd)].
    + destruct (unmarshal_Ok_name _ _ _ _ Hlt Hrun) as (Hn & _).
      rewrite (unmarshal_Ok_other_keys _ _ _ _ Hlt Hrun) in Hnone.
      * congruence.
      * simpl. intros H.
        repeat (destruct H as [H|H]; [discriminate H|]). exact H.
    + assert (Hin : In (k, dec) slots).
      { rewrite Htab, Hr. apply in_or_app. right. left. reflexivity. }
      destruct (Hdec _ _ Hin) as [H0|H0]; congruence.
Qed.


(** ** Records, classes and required fields *)

Lemma first_missing_app ks ks' d :
  first_missing (ks ++ ks') d =
  match first_missing ks d with
  | Some k => Some k
  | None => first_missing ks' d
  end.
Proof.
  induction ks as [|k ks IH]; simpl; [reflexivity|].
  destruct (Dict.mem k d); [exact IH|reflexivity].
Qed.

Lemma getitems_dict ks d :
  getitems (PDict d) ks =
  match first_missing ks d with
  | Some k => Raise (KeyError k)
  | None => Ok (values_of ks d)
  end.
Proof.
  unfold getitems, values_of.
  induction ks as [|k ks IH]; simpl; [reflexivity|].
  unfold Dict.mem. destruct (Dict.get k d) as [v|]; simpl; [|reflexivity].
  rewrite IH. destruct (first_missing ks d); reflexivity.
Qed.

Lemma record_shapes_slots slot shape :
  In (slot, shape) record_shapes -> In (slot, shape_decoder shape) slots.
Proof.
  unfold record_shapes. simpl. intros H.
  repeat (destruct H as [H|H]; [inversion H; subst; clear H; in_list|]).
  destruct H.
Qed.

(** X7.  The decoders of the index slots and of the other plain slots ask for
    every key of their list: the first key the record lacks is the one the
    [KeyError] names, and only a record with all of them reaches the
    constructor, which gets their values in that order, the flag of an
    index being true for the string [true] alone. *)
Theorem record_decoder_required_fields slot shape d :
  In (slot, shape) record_shapes ->
  In (slot, shape_decoder shape) slots /\
  shape_decoder shape (PDict d) =
  match first_missing (required_keys shape) d with
  | Some k => Raise (KeyError k)
  | None => new (fst (fst shape)) (constructor_args shape d)
  end.
Proof.
  intros Hin. split; [now apply record_shapes_slots|].
  destruct shape as [[c ks] index]. clear Hin.
  unfold shape_decoder, required_keys, constructor_args. simpl fst.
  destruct index.
  - unfold decode_index. rewrite getitems_dict, first_missing_app.
    destruct (first_missing ks d); [reflexivity|]. simpl.
    unfold Dict.mem.
    destruct (Dict.get "range-value-positions" d); simpl; [|reflexivity].
    destruct (Dict.get "invalid-values" d); reflexivity.
  - unfold decode_plain. rewrite getitems_dict.
    destruct (first_missing ks d); reflexivity.
Qed.

Lemma decode_merge_blackout_class blackout e :
  decode_merge_blackout blackout = Ok e ->
  exists c, class_of e = Some c /\ In c (slot_classes "merge-blackout").
Proof.
  unfold decode_merge_blackout. intros H.
  repeat (bind_ok H;
          match type of H with
          | (if ?b then _ else _) = _ => destruct b
          | _ => idtac
          end);
    try discriminate H;
    apply new_object in H as [config ->]; eexists; (split; [reflexivity|]);
    in_list.
Qed.

Lemma backup_kind_class tag c ks :
  backup_kind tag = Some (c, ks) -> In c (slot_classes "database-backup").
Proof.
  unfold backup_kind.
  repeat match goal with
         | |- (if ?b then _ else _) = _ -> _ => destruct b
         end;
    intros H; inversion H; subst; in_list.
Qed.

Lemma decode_database_backup_parts backup e :
  decode_database_backup backup = Ok e ->
  exists d tag id c ks args config,
    backup = PDict d /\
    Dict.get "backup-type" d = Some tag /\
    backup_kind tag = Some (c, ks) /\
    Dict.get "backup-id" d = Some id /\
    e = PObj c args (Dict.set "backup-id" id config).
Proof.
  unfold decode_database_backup. intros H.
  bind_ok H. bind_ok H. bind_ok H.
  apply getitem_Ok in E1 as (d & -> & Htag).
  bind_ok H. bind_ok H.
  destruct (Dict.get "backup-id" d) as [id|] eqn:Hid; [|discriminate E2].
  inversion E2; subst a3.
  destruct (backup_kind a1) as [[c ks]|] eqn:Hk; [|discriminate E1].
  bind_ok E1. apply new_object in E1 as [config ->].
  simpl in H. inversion H; subst.
  exists d, a1, id, c, ks, a3, config. auto.
Qed.

Lemma slot_decoder_classes key decode x e :
  In (key, decode) slots ->
  decode x = Ok e ->
  exists c, class_of e = Some c /\ In c (slot_classes key).
Proof.
  unfold slots. simpl. intros Hin Hd.
  repeat (destruct Hin as [Hin|Hin];
          [inversion Hin; subst; clear Hin;
           first [ apply decode_index_class in Hd; eexists;
                   split; [exact Hd|in_list]
                 | apply decode_plain_class in Hd; eexists;
                   split; [exact Hd|in_list]
                 | now apply decode_merge_blackout_class in Hd
                 | apply decode_database_backup_parts in Hd
                     as (d & tag & id & c & ks & a & cf & _ & _ & Hk & _ & ->);
                   exists c; split; [reflexivity|];
                   exact (backup_kind_class _ _ _ Hk)
                 | apply decode_field_Field in Hd as (c & a & cf & -> & Hc);
                   exists c; split; [reflexivity|];
                   destruct c; try discriminate Hc; in_list ]
          |]).
  destruct Hin.
Qed.

(** X5.  After [unmarshal] every slot holds entities of its own classes only:
    the one class of an index or plain slot, one of the five kinds of
    blackout, of the six kinds of backup, of the three kinds of field. *)
Theorem unmarshal_slots_are_typed config h db h' key olist :
  config < next h ->
  unmarshal config h = (Ok db, h') ->
  In key slot_keys ->
  Dict.get key (cell h' config) = Some (PList olist) ->
  Forall (fun e => exists c, class_of e = Some c /\ In c (slot_classes key))
         olist.
Proof.
  intros Hlt Hrun Hkey Hg.
  destruct (slot_has_decoder _ Hkey) as [decode Hin].
  destruct (unmarshal_Ok_slots _ _ _ _ Hlt Hrun) as (_ & Hslots).
  destruct (Hslots _ _ Hin) as (l & Hd & Hgl).
  rewrite Hg in Hgl. inversion Hgl; subst l. clear Hgl.
  unfold decode_slot in Hd.
  destruct (Dict.mem key (cell h config)); [|inversion Hd; constructor].
  repeat bind_ok Hd. apply mapR_Forall2 in Hd. clear E E0 Hg.
  induction Hd as [|x y xs ys Hxy _ IH]; constructor; auto.
  eapply slot_decoder_classes; eauto.
Qed.

(** X12.  A decoded backup is of the kind its [backup-type] names and carries
    the [backup-id] of its record, which is what [marshal] emits for it. *)
Theorem decoded_backup_keeps_id backup e :
  decode_database_backup backup = Ok e ->
  exists d tag id c ks emitted,
    backup = PDict d /\
    Dict.get "backup-type" d = Some tag /\
    backup_kind tag = Some (c, ks) /\
    class_of e = Some c /\
    Dict.get "backup-id" d = Some id /\
    encode "database-backup" e = Ok (PDict emitted) /\
    Dict.get "backup-id" emitted = Some id.
Proof.
  intros H.
  apply decode_database_backup_parts in H
    as (d & tag & id & c & ks & args & config & -> & Ht & Hk & Hid & ->).
  exists d, tag, id, c, ks, (Dict.set "backup-id" id config).
  repeat split; auto. apply get_set_same.
Qed.

(** X9.  A one-time blackout is resolved by [end-time] first: a period with
    [end-time] gives the start-end kind even when [duration] is there as
    well (the recurring kinds go the other way round), and [duration]
    counts only without [end-time]. *)
Theorem once_blackout_resolution blackout p :
  blackout.["blackout-type"] = Ok (PStr "once") ->
  blackout.["period"] = Ok (PDict p) ->
  (Dict.mem "end-time" p = true ->
   decode_merge_blackout blackout =
   (a <- getitems blackout ["merge-priority"; "limit"] ;;
    b <- getitems (PDict p)
           ["start-date"; "start-time"; "end-date"; "end-time"] ;;
    new MergeBlackout_oneTimeStartEnd (a ++ b))) /\
  (Dict.mem "end-time" p = false ->
   Dict.mem "duration" p = true ->
   decode_merge_blackout blackout =
   (a <- getitems blackout ["merge-priority"; "limit"] ;;
    b <- getitems (PDict p) ["start-date"; "start-time"; "duration"] ;;
    new MergeBlackout_oneTimeDuration (a ++ b))).
Proof.
  intros Hty Hp. unfold decode_merge_blackout, blackout_is. rewrite Hty.
  split.
  - intros He. simpl. rewrite Hp. simpl. rewrite He. reflexivity.
  - intros He Hd. simpl. rewrite Hp. simpl. rewrite He, Hd. reflexivity.
Qed.

(** ** More about [marshal] *)

Lemma get_not_in_keys (k : string) (d : dict) :
  ~ In k (Dict.keys d) -> Dict.get k d = None.
Proof.
  intros H. destruct (Dict.get k d) eqn:E; [|reflexivity].
  exfalso. apply H. eapply get_In_keys; eauto.
Qed.

Lemma mem_In_keys (k : string) (d : dict) :
  Dict.mem k d = false -> ~ In k (Dict.keys d).
Proof.
  intros Hm Hin. apply In_keys_get in Hin as [v Hv].
  apply get_mem in Hv. congruence.
Qed.

Lemma marshal_loop_keys d keys : forall struct struct',
  marshal_loop d keys struct = Ok struct' ->
  NoDup keys ->
  (forall k, In k keys -> ~ In k (Dict.keys struct)) ->
  Dict.keys struct' = Dict.keys struct ++ keys.
Proof.
  induction keys as [|k keys IH]; simpl; intros struct struct' H Hnd Hnew.
  - inversion H. now rewrite app_nil_r.
  - bind_ok H. inversion Hnd as [|? ? Hk Hnd']; subst.
    assert (Hm : Dict.mem k struct = false).
    { unfold Dict.mem. rewrite get_not_in_keys; [reflexivity|].
      apply Hnew. left. reflexivity. }
    rewrite (IH _ _ H Hnd').
    + rewrite keys_set, Hm, <- app_assoc. reflexivity.
    + intros k' Hk'. rewrite keys_set, Hm. intros Hin.
      apply in_app_or in Hin as [Hin|[Hin|[]]].
      * apply (Hnew k'); [right; exact Hk'|exact Hin].
      * subst k'. contradiction.
Qed.

Lemma marshal_Ok_other_keys self h struct h' :
  marshal self h = (Ok (PDict struct), h') ->
  forall key, ~ In key slot_keys ->
    Dict.get key struct = Dict.get key (cell h (_config self)).
Proof.
  intros Hm key Hk. rewrite marshal_run in Hm.
  destruct (marshal_loop _ _ _) as [s|] eqn:Hloop; inversion Hm; subst.
  destruct (in_dec string_dec key (Dict.keys (cell h' (_config self))))
    as [Hin|Hin].
  - destruct (marshal_loop_emits _ _ _ _ key Hloop Hin) as (v & Hv & Hg).
    rewrite marshal_value_other in Hv by exact Hk.
    apply getitem_Ok in Hv as (d' & Hd & Hgv). inversion Hd; subst d'.
    congruence.
  - rewrite (marshal_loop_frame _ _ _ _ _ Hloop Hin).
    rewrite (get_not_in_keys _ _ Hin). reflexivity.
Qed.

(** X13.  [marshal] leaves the heap alone and returns a dictionary with the
    keys of the configuration, in their order, in which every key that is
    not a slot has the value the configuration gives it. *)
Theorem marshal_copies_options self h v h' :
  marshal self h = (Ok v, h') ->
  NoDup (Dict.keys (cell h (_config self))) ->
  h' = h /\
  exists struct,
    v = PDict struct /\
    Dict.keys struct = Dict.keys (cell h (_config self)) /\
    forall key, ~ In key slot_keys ->
      Dict.get key struct = Dict.get key (cell h (_config self)).
Proof.
  intros Hm Hnd. pose proof Hm as Hm'. rewrite marshal_run in Hm.
  destruct (marshal_loop _ _ _) as [s|] eqn:Hloop; inversion Hm; subst.
  split; [reflexivity|]. exists s. split; [reflexivity|]. split.
  - apply marshal_loop_keys in Hloop; auto.
  - now apply marshal_Ok_other_keys with (h' := h').
Qed.

(** X14.  [marshal] after [unmarshal] gives back every option of the wire
    document that is not a slot with the value it came with. *)
Theorem marshal_unmarshal_keeps_options config h db h1 struct h2 key :
  config < next h ->
  unmarshal config h = (Ok db, h1) ->
  marshal db h1 = (Ok (PDict struct), h2) ->
  ~ In key slot_keys ->
  Dict.get key struct = Dict.get key (cell h config).
Proof.
  intros Hlt Hrun Hm Hk.
  destruct (unmarshal_Ok_slots _ _ _ _ Hlt Hrun) as (Hcfg & _).
  rewrite (marshal_Ok_other_keys _ _ _ _ Hm key Hk), Hcfg.
  now apply unmarshal_Ok_other_keys with (db := db).
Qed.


(** ** Fields and the word query *)

Lemma filter_all {A} (f : A -> bool) (l : list A) :
  (forall x, In x l -> f x = true) -> filter f l = l.
Proof.
  induction l as [|x l IH]; simpl; intros H; [reflexivity|].
  rewrite (H x) by (left; reflexivity).
  rewrite IH by (intros y Hy; apply H; right; exact Hy). reflexivity.
Qed.

Lemma named_fields_filter items l :
  named_fields items = Ok l ->
  l = filter is_named items /\
  first_unnamed items = Ok (find (fun f => negb (is_named f)) items).
Proof.
  revert l. induction items as [|f rest IH]; simpl; intros l H.
  - inversion H. auto.
  - destruct (field_name f) as [n|] eqn:Hfn; [|discriminate H].
    assert (Hnamed : is_named f = negb (is_None n))
      by (unfold is_named; now rewrite Hfn).
    simpl in H. destruct (named_fields rest) as [more|]; [|discriminate H].
    simpl in H. inversion H; subst l. clear H.
    destruct (IH more eq_refl) as [-> Hfirst]. rewrite Hnamed.
    destruct (is_None n) eqn:Hnone; simpl; rewrite ?Hnone; auto.
Qed.

Lemma fields_run self h items :
  Dict.get "field" (cell h (_config self)) = Some (PList items) ->
  fields self h =
  (match named_fields items with
   | Ok l => Ok (PList l)
   | Raise e => Raise e
   end, h).
Proof.
  intros Hg.
  unfold fields, config_contains, config_getitem, mbind, load, lift, mret,
    Dict.mem, getitem.
  cbv beta. rewrite Hg. cbv beta iota. rewrite Hg. simpl.
  destruct (named_fields items); reflexivity.
Qed.

Lemma word_query_run self h items :
  Dict.get "field" (cell h (_config self)) = Some (PList items) ->
  word_query self h =
  match first_unnamed items with
  | Ok (Some field) => (Ok field, h)
  | Ok None => (new WordQuery [PBool false], h)
  | Raise e => (Raise e, h)
  end.
Proof.
  intros Hg.
  unfold word_query, config_contains, config_getitem, mbind, load, lift, mret,
    Dict.mem, getitem.
  cbv beta. rewrite Hg. cbv beta iota. rewrite Hg. simpl.
  destruct (first_unnamed items) as [[f|]|]; reflexivity.
Qed.

(** X20.  [fields] gives the items of the field slot whose name is not None, in
    their order, and [word_query] the first item whose name is None, which
    is never among the fields; when no item is unnamed [fields] gives the
    whole slot and [word_query] a new [WordQuery(False)]. *)
Theorem fields_and_word_query self h items l :
  Dict.get "field" (cell h (_config self)) = Some (PList items) ->
  fields self h = (Ok (PList l), h) ->
  l = filter is_named items /\
  match find (fun f => negb (is_named f)) items with
  | Some w => word_query self h = (Ok w, h) /\ In w items /\ ~ In w l
  | None => word_query self h = (new WordQuery [PBool false], h) /\ l = items
  end.
Proof.
  intros Hg Hf. rewrite (fields_run _ _ _ Hg) in Hf.
  destruct (named_fields items) as [l'|] eqn:Hn; [|discriminate Hf].
  inversion Hf; subst l'. clear Hf.
  destruct (named_fields_filter _ _ Hn) as [Hl Hfirst].
  split; [exact Hl|].
  rewrite (word_query_run _ _ _ Hg), Hfirst.
  destruct (find (fun f => negb (is_named f)) items) as [w|] eqn:Hfind.
  - apply find_some in Hfind as [Hin Hw].
    repeat split; auto. rewrite Hl. intros Hin'.
    apply filter_In in Hin' as [_ Hn']. rewrite Hn' in Hw. discriminate Hw.
  - split; [reflexivity|]. rewrite Hl. apply filter_all.
    intros x Hx. pose proof (find_none _ _ Hfind x Hx) as Hx'.
    simpl in Hx'. now apply negb_false_iff in Hx'.
Qed.

Lemma set_word_query_loop_false items word_query b :
  set_word_query_loop items word_query false = Ok b -> b = false.
Proof.
  induction items as [|item rest IH]; simpl; intros H.
  - now inversion H.
  - destruct (field_name item) as [n|]; [|discriminate H]. simpl in H.
    destruct (str_eq n ""); [|auto].
    destruct (assert_type word_query WordQuery_class); discriminate H.
Qed.

(** X21.  [set_word_query] never replaces an item: when it returns, the field
    slot is the former list with the value added at its end and nothing
    else of the configuration has changed; when it raises, nothing has
    changed at all. *)
Theorem set_word_query_appends_or_raises self word_query h r h' :
  set_word_query self word_query h = (r, h') ->
  match r with
  | Ok _ =>
      exists l,
        match Dict.get "field" (cell h (_config self)) with
        | Some v => v
        | None => PList []
        end = PList l /\
        Dict.get "field" (cell h' (_config self))
        = Some (PList (l ++ [word_query])) /\
        forall key, key <> "field" ->
          Dict.get key (cell h' (_config self))
          = Dict.get key (cell h (_config self))
  | Raise _ => h' = h
  end.
Proof.
  rewrite set_word_query_run. cbv zeta.
  set (fields := match Dict.get "field" (cell h (_config self)) with
                 | Some v => v
                 | None => PList []
                 end).
  destruct (iter fields) as [items|] eqn:Hit;
    [|simpl; intros H; inversion H; reflexivity].
  rewrite rbind_Ok.
  destruct (set_word_query_loop items word_query false) as [b|] eqn:Hloop;
    [|simpl; intros H; inversion H; reflexivity].
  rewrite (set_word_query_loop_false _ _ _ Hloop), rbind_Ok.
  destruct fields as [| | | |l| |] eqn:Hfields;
    try (intros H; inversion H; reflexivity).
  destruct (assert_type word_query WordQuery_class) as [wq|] eqn:Ha;
    [|simpl; intros H; inversion H; reflexivity].
  apply assert_type_Ok in Ha. subst wq. simpl.
  intros H. inversion H; subst. exists l. split; [reflexivity|].
  simpl. rewrite Nat.eqb_refl. split; [apply get_set_same|].
  intros key Hk. apply get_set_other. congruence.
Qed.

(** ** Setters *)

Lemma check_items_forallb c msg items :
  check_items c msg items =
  if forallb (fun x => isinstance x c) items then Ok tt
  else Raise (ValidationError msg).
Proof.
  induction items as [|x rest IH]; simpl; [reflexivity|].
  destruct (isinstance x c); simpl; [exact IH|reflexivity].
Qed.

Lemma set_checked_run c key_one key_list msg_list msg_item self value h :
  set_checked c key_one key_list msg_list msg_item self value h =
  let d := cell h (_config self) in
  let put key v :=
    (Ok tt, {| next := next h;
               cell := fun r' => if Nat.eqb r' (_config self)
                                 then Dict.set key v d else cell h r' |}) in
  if isinstance value c then put key_one (PList [value])
  else
    match value with
    | PList items =>
        if forallb (fun x => isinstance x c) items then put key_list value
        else (Raise (ValidationError msg_item), h)
    | _ => (Raise (ValidationError msg_list), h)
    end.
Proof.
  unfold set_checked, config_setitem, mbind, load, store, lift.
  destruct (isinstance value c); [reflexivity|].
  destruct value; try reflexivity.
  rewrite check_items_forallb.
  destruct (forallb _ l); reflexivity.
Qed.

Lemma checked_setters_shape c setter getter :
  In (c, setter, getter) checked_setters ->
  exists key m1 m2,
    setter = set_checked c key key m1 m2 /\ getter = slot_getter key.
Proof.
  unfold checked_setters. simpl.
  intros [H|[H|[]]]; inversion H; subst; do 3 eexists; split; reflexivity.
Qed.

(** X18.  [set_path_namespaces] and [set_attribute_word_lexicons] store all or
    nothing: when the call returns the getter gives a list whose elements
    are all of the class, the argument itself when it is a list and the
    list of the argument alone when it is one object; when the call
    raises, it is the validation error and the heap is as before. *)
Theorem checked_setter_all_or_nothing c setter getter self value h r h' :
  In (c, setter, getter) checked_setters ->
  setter self value h = (r, h') ->
  match r with
  | Ok _ =>
      exists l,
        getter self h' = (Ok (PList l), h') /\
        forallb (fun x => isinstance x c) l = true /\
        (if isinstance value c then l = [value] else value = PList l)
  | Raise e => h' = h /\ exists msg, e = ValidationError msg
  end.
Proof.
  intros Hin Hset.
  apply checked_setters_shape in Hin as (key & m1 & m2 & -> & ->).
  rewrite set_checked_run in Hset. cbv zeta in Hset.
  destruct (isinstance value c) eqn:Hone.
  - inversion Hset; subst. exists [value].
    rewrite slot_getter_run. simpl. rewrite Nat.eqb_refl, get_set_same.
    simpl. rewrite Hone. auto.
  - destruct value; try (inversion Hset; subst; split; eauto).
    destruct (forallb (fun x => isinstance x c) l) eqn:Hall;
      inversion Hset; subst; [|split; eauto].
    exists l. rewrite slot_getter_run. simpl.
    rewrite Nat.eqb_refl, get_set_same. auto.
Qed.

Lemma element_word_query_throughs_run self h :
  element_word_query_throughs self h =
  if Dict.mem "element-word-query-through" (cell h (_config self))
  then (match Dict.get "element-word-query_through" (cell h (_config self)) with
        | Some v => Ok v
        | None => Raise (KeyError "element-word-query_through")
        end, h)
  else (Ok PNone, h).
Proof.
  unfold element_word_query_throughs, config_contains, config_getitem,
    mbind, load, mret, lift, getitem.
  cbv beta. destruct (Dict.mem _ _); reflexivity.
Qed.

(** X19.  [set_element_word_query_throughs] and its getter do not meet.  A list
    is stored under the key spelled with an underscore, which the getter
    does not test: on a configuration without the hyphenated key the
    getter still gives None.  One object is stored under the hyphenated
    key, which the getter tests before it reads the other spelling: without
    that other key the getter raises. *)
Theorem word_query_throughs_setter_and_getter_disagree self h :
  Dict.mem "element-word-query-through" (cell h (_config self)) = false ->
  (forall items,
     forallb (fun x => isinstance x ElementWordQueryThrough) items = true ->
     exists h',
       set_element_word_query_throughs self (PList items) h = (Ok tt, h') /\
       element_word_query_throughs self h' = (Ok PNone, h')) /\
  (forall args config,
     Dict.mem "element-word-query_through" (cell h (_config self)) = false ->
     exists h',
       set_element_word_query_throughs self
         (PObj ElementWordQueryThrough args config) h = (Ok tt, h') /\
       element_word_query_throughs self h'
       = (Raise (KeyError "element-word-query_through"), h')).
Proof.
  intros Hm. split.
  - intros items Hall. unfold set_element_word_query_throughs.
    rewrite set_checked_run. cbv zeta. simpl isinstance. rewrite Hall.
    eexists. split; [reflexivity|].
    rewrite element_word_query_throughs_run. cbn [cell _config].
    rewrite Nat.eqb_refl, mem_set_other by discriminate.
    now rewrite Hm.
  - intros args config Hm'. unfold set_element_word_query_throughs.
    rewrite set_checked_run. cbv zeta. simpl isinstance.
    eexists. split; [reflexivity|].
    rewrite element_word_query_throughs_run. cbn [cell _config].
    rewrite Nat.eqb_refl. unfold Dict.mem at 1.
    rewrite get_set_same, get_set_other by discriminate.
    now rewrite (mem_false_get _ _ Hm').
Qed.

Lemma option_setter_run key self value h :
  option_setter key self value h =
  (Ok self,
   {| next := next h;
      cell := fun r' => if Nat.eqb r' (_config self)
                        then Dict.set key value (cell h (_config self))
                        else cell h r' |}).
Proof. reflexivity. Qed.

Lemma stored_options_shape key setter getter :
  In (key, setter, getter) stored_options ->
  setter = option_setter key /\ getter = slot_getter key /\
  ~ In key slot_keys.
Proof.
  unfold stored_options. simpl. intros H.
  repeat (destruct H as [H|H];
          [inversion H; subst; clear H;
           split; [reflexivity|split; [reflexivity|]];
           simpl; intros H;
           repeat (destruct H as [H|H]; [discriminate H|]); exact H
          |]).
  destruct H.
Qed.

(** X17.  The options stored without a validator: the setter returns the
    Database itself, the getter then gives the value just stored, and the
    getters of the other such options and of the slots give what they gave
    before. *)
Theorem stored_option_round_trip key setter getter self value h :
  In (key, setter, getter) stored_options ->
  exists h',
    setter self value h = (Ok self, h') /\
    getter self h' = (Ok value, h') /\
    (forall key' setter' getter',
       In (key', setter', getter') stored_options ->
       key' <> key ->
       fst (getter' self h') = fst (getter' self h)) /\
    (forall key' getter',
       In (key', getter') getters ->
       fst (getter' self h') = fst (getter' self h)).
Proof.
  intros Hin. apply stored_options_shape in Hin as (-> & -> & Hk).
  rewrite option_setter_run. eexists. split; [reflexivity|].
  rewrite slot_getter_run. cbn [cell _config].
  rewrite Nat.eqb_refl, get_set_same. split; [reflexivity|]. split.
  - intros key' setter' getter' Hin' Hne.
    apply stored_options_shape in Hin' as (_ & -> & _).
    rewrite !slot_getter_run. cbn [cell _config].
    rewrite Nat.eqb_refl, get_set_other by congruence.
    destruct (Dict.get key' _); reflexivity.
  - intros key' getter' Hin'.
    apply getters_slot_getter in Hin' as [-> Hk'].
    rewrite !slot_getter_run. cbn [cell _config].
    rewrite Nat.eqb_refl, get_set_other by (intros ->; contradiction).
    destruct (Dict.get key' _); reflexivity.
Qed.

(** ** The option getters *)

Lemma option_getters_shape key getter :
  In (key, getter) option_getters ->
  getter = slot_getter key /\ ~ In key slot_keys.
Proof.
  unfold option_getters. simpl. intros H.
  repeat (destruct H as [H|H];
          [inversion H; subst; clear H; split; [reflexivity|];
           simpl; intros H;
           repeat (destruct H as [H|H]; [discriminate H|]); exact H
          |]).
  destruct H.
Qed.

(** X15.  After [unmarshal] every option getter gives what the wire document
    has under the key of the option, and None for an option the document
    does not have; the conversion of the slots does not reach them. *)
Theorem option_getters_after_unmarshal config h db h' key getter :
  config < next h ->
  unmarshal config h = (Ok db, h') ->
  In (key, getter) option_getters ->
  getter db h' =
  (Ok match Dict.get key (cell h config) with
      | Some value => value
      | None => PNone
      end, h').
Proof.
  intros Hlt Hrun Hin. apply option_getters_shape in Hin as [-> Hk].
  destruct (unmarshal_Ok_slots _ _ _ _ Hlt Hrun) as [Hcfg _].
  rewrite slot_getter_run, Hcfg.
  rewrite (unmarshal_Ok_other_keys _ _ _ _ Hlt Hrun key Hk).
  destruct (Dict.get key (cell h config)); reflexivity.
Qed.

(** X16.  A new Database has the six options of [__init__] and no other: its
    name, one forest named after it, the two databases [Security] and
    [Schemas], [enabled] and the language; the getter of every other
    option gives None. *)
Theorem fresh_database_options nm hostnm h :
  exists db h',
    Database_init nm hostnm h = (Ok db, h') /\
    name db = PStr nm /\ hostname db = PStr hostnm /\
    fst (database_name db h') = Ok (PStr nm) /\
    fst (forest_names db h') = Ok (PList [PStr (nm ++ "-Forest-001")]) /\
    fst (security_database_name db h') = Ok (PStr "Security") /\
    fst (schema_database_name db h') = Ok (PStr "Schemas") /\
    fst (enabled db h') = Ok (PBool true) /\
    fst (language db h') = Ok (PStr "en") /\
    forall key getter,
      In (key, getter) option_getters ->
      ~ In key default_keys ->
      fst (getter db h') = Ok PNone.
Proof.
  eexists. eexists. split; [reflexivity|].
  split; [reflexivity|]. split; [reflexivity|].
  unfold database_name, forest_names, security_database_name,
    schema_database_name, enabled, language.
  rewrite !slot_getter_run. cbn [cell _config]. rewrite Nat.eqb_refl.
  do 6 (split; [reflexivity|]).
  intros key getter Hin Hk. apply option_getters_shape in Hin as [-> _].
  rewrite slot_getter_run. cbn [cell _config]. rewrite Nat.eqb_refl.
  rewrite get_not_in_keys; [reflexivity|exact Hk].
Qed.

(** ** The slot getters of an unmarshalled Database *)

(** C6.  On a configuration that does not bind the key of its slot, every
    slot getter gives None, and the getters of the table give the bound
    value when there is one.  A Database that comes from [unmarshal] never
    shows the absence of a slot this way: every slot key is bound by then,
    so the getters of the table give a list, the empty list when the wire
    document lacked the key, [fields] gives the empty list too, and the
    getter of the word query throughs, which tests the key with the hyphen
    and reads the one with the underscore, gives what the document has
    under the latter and raises when it has nothing there. *)
Theorem slot_getters_after_unmarshal_not_None :
  (forall key getter self h,
     In (key, getter) getters ->
     Dict.mem key (cell h (_config self)) = false ->
     getter self h = (Ok PNone, h)) /\
  (forall self h,
     Dict.mem "element-word-query-through" (cell h (_config self)) = false ->
     element_word_query_throughs self h = (Ok PNone, h)) /\
  (forall self h,
     Dict.mem "field" (cell h (_config self)) = false ->
     fields self h = (Ok PNone, h)) /\
  (forall key getter self h v,
     In (key, getter) getters ->
     Dict.get key (cell h (_config self)) = Some v ->
     getter self h = (Ok v, h)) /\
  (forall config h db h',
     config < next h ->
     unmarshal config h = (Ok db, h') ->
     (forall key getter,
        In (key, getter) getters ->
        exists olist,
          getter db h' = (Ok (PList olist), h') /\
          (Dict.mem key (cell h config) = false -> olist = [])) /\
     fst (fields db h') <> Ok PNone /\
     (Dict.mem "field" (cell h config) = false ->
      fields db h' = (Ok (PList []), h')) /\
     element_word_query_throughs db h' =
     (match Dict.get "element-word-query_through" (cell h config) with
      | Some v => Ok v
      | None => Raise (KeyError "element-word-query_through")
      end, h')).
Proof.
  split; [|split; [|split; [|split]]].
  - intros key getter self h Hin Hm.
    apply getters_slot_getter in Hin as [-> _].
    rewrite slot_getter_run, (mem_false_get _ _ Hm). reflexivity.
  - intros self h Hm. rewrite element_word_query_throughs_run, Hm.
    reflexivity.
  - intros self h Hm.
    unfold fields, config_contains, mbind, load, mret. now rewrite Hm.
  - intros key getter self h v Hin Hg.
    apply getters_slot_getter in Hin as [-> _].
    rewrite slot_getter_run, Hg. reflexivity.
  - intros config h db h' Hlt Hrun.
    destruct (unmarshal_Ok_slots _ _ _ _ Hlt Hrun) as (Hcfg & _).
    split; [|split; [|split]].
    + intros key getter Hin.
      apply getters_slot_getter in Hin as [-> Hk].
      destruct (slot_has_decoder _ Hk) as [decode Hdec].
      destruct (unmarshal_Ok_objects _ _ _ _ Hlt Hrun _ _ Hdec)
        as (olist & Hg & _ & _ & Hnil).
      exists olist. rewrite slot_getter_run, Hcfg, Hg. auto.
    + destruct (unmarshal_Ok_objects _ _ _ _ Hlt Hrun _ _ field_in_slots)
        as (olist & Hg & _).
      rewrite <- Hcfg in Hg. rewrite (fields_run _ _ _ Hg).
      destruct (named_fields olist); simpl; discriminate.
    + intros Hm.
      destruct (unmarshal_Ok_objects _ _ _ _ Hlt Hrun _ _ field_in_slots)
        as (olist & Hg & _ & _ & Hnil).
      rewrite (Hnil Hm) in Hg. rewrite <- Hcfg in Hg.
      rewrite (fields_run _ _ _ Hg). reflexivity.
    + assert (Hk : In "element-word-query-through" slot_keys) by in_list.
      destruct (slot_has_decoder _ Hk) as [decode Hdec].
      destruct (unmarshal_Ok_objects _ _ _ _ Hlt Hrun _ _ Hdec)
        as (olist & Hg & _).
      rewrite element_word_query_throughs_run, Hcfg, (get_mem _ _ _ Hg).
      rewrite (unmarshal_Ok_other_keys _ _ _ _ Hlt Hrun
                 "element-word-query_through"); [reflexivity|not_in_list].
Qed.

End Entities.

(** ** The statements on the sample inputs *)

(** The literal records of the specification: the all-day record, the
    duration record, a record with both keys and a record with an unknown
    tag. *)
Lemma recurring_blackout_resolution_witness :
  decode_merge_blackout Sample.construct Sample.all_day =
  Ok (PObj MergeBlackout_recurringAllDay
        [PStr "normal"; PInt 2; PList [PStr "monday"]]
        [("args", PList [PStr "normal"; PInt 2; PList [PStr "monday"]])]) /\
  decode_merge_blackout Sample.construct Sample.duration =
  new Sample.construct MergeBlackout_recurringDuration
    [PStr "normal"; PInt 2; PList [PStr "monday"]; PStr "08:00:00"; PStr "P1H"] /\
  decode_merge_blackout Sample.construct Sample.duration_and_end =
  new Sample.construct MergeBlackout_recurringDuration
    [PStr "normal"; PInt 2; PList [PStr "monday"]; PStr "08:00:00"; PStr "P1H"] /\
  decode_merge_blackout Sample.construct Sample.weekly_blackout =
  Raise (UnexpectedManagementAPIResponse "Unparseable merge blackout period").
Proof.
  split; [|split; [|split]].
  - destruct (recurring_blackout_resolution Sample.construct Sample.all_day
                (PStr "recurring") eq_refl) as (H & _).
    rewrite (H eq_refl eq_refl). reflexivity.
  - destruct (recurring_blackout_resolution Sample.construct Sample.duration
                (PStr "recurring") eq_refl) as (_ & H & _).
    rewrite (H eq_refl _ eq_refl eq_refl). reflexivity.
  - destruct (recurring_blackout_resolution Sample.construct
                Sample.duration_and_end (PStr "recurring") eq_refl)
      as (_ & H & _).
    rewrite (H eq_refl _ eq_refl eq_refl). reflexivity.
  - destruct (recurring_blackout_resolution Sample.construct
                Sample.weekly_blackout (PStr "weekly") eq_refl)
      as (_ & _ & _ & H).
    exact (H eq_refl eq_refl).
Defined.

(** A path field with the empty name, the word query and a root field. *)
Lemma field_discrimination_witness :
  (forall e,
     decode_field Sample.construct Sample.Field_unmarshal Sample.path_field = Ok e ->
     class_of e = Some PathField) /\
  decode_field Sample.construct Sample.Field_unmarshal Sample.word_query_field =
  Ok (PObj WordQuery [PBool false] [("args", PList [PBool false])]) /\
  decode_field Sample.construct Sample.Field_unmarshal Sample.root_field =
  Ok (PObj RootField [PStr "title"; PBool true]
        [("args", PList [PStr "title"; PBool true])]).
Proof.
  split; [|split].
  - exact (proj1 (field_discrimination Sample.construct Sample.Field_unmarshal
                    [ ("field-name", PStr "");
                      ("field-path",
                       PList [ PDict [ ("path", PStr "/a/b");
                                       ("weight", PInt 1) ] ]) ]
                    (PStr "") eq_refl)).
  - destruct (field_discrimination Sample.construct Sample.Field_unmarshal
                [("field-name", PStr ""); ("include-root", PStr "false")]
                (PStr "") eq_refl) as (_ & _ & H & _).
    unfold Sample.word_query_field.
    destruct (H eq_refl eq_refl) as [_ ->]. reflexivity.
  - destruct (field_discrimination Sample.construct Sample.Field_unmarshal
                [("field-name", PStr "title"); ("include-root", PStr "true")]
                (PStr "title") eq_refl) as (_ & _ & _ & H).
    unfold Sample.root_field.
    destruct (H eq_refl eq_refl) as [_ ->]. reflexivity.
Defined.

(** The sample document decodes, into the dictionary it came in. *)
Lemma unmarshal_keeps_callers_dict_witness :
  match unmarshal Sample.construct Sample.Field_unmarshal 0
          (heap_of [Sample.good_doc]) with
  | (Ok db, h') =>
      _config db = 0 /\
      forall key decode,
        In (key, decode) (slots Sample.construct Sample.Field_unmarshal) ->
        exists olist,
          Dict.get key (cell h' 0) = Some (PList olist) /\
          decode_slot decode key Sample.good_doc = Ok olist /\
          forallb is_object olist = true /\
          (Dict.mem key Sample.good_doc = false -> olist = [])
  | (Raise _, _) => False
  end.
Proof.
  destruct (unmarshal Sample.construct Sample.Field_unmarshal 0
              (heap_of [Sample.good_doc])) as [[db|e] h'] eqn:E.
  - apply (unmarshal_keeps_callers_dict Sample.construct Sample.Field_unmarshal
             0 (heap_of [Sample.good_doc]) db h'); [simpl; lia|exact E].
  - vm_compute in E. discriminate E.
Defined.

(** The document with nothing but its name comes back with every slot
    as an empty array. *)
Lemma unmarshal_binds_every_slot_witness :
  match unmarshal Sample.construct Sample.Field_unmarshal 0
          (heap_of [Sample.bare_doc]) with
  | (Ok db, h') =>
      exists struct,
        marshal Sample.Field_marshal db h' = (Ok (PDict struct), h') /\
        forall key, In key slot_keys ->
          exists jlist,
            Dict.get key struct = Some (PList jlist) /\
            (Dict.mem key Sample.bare_doc = false -> jlist = [])
  | (Raise _, _) => False
  end.
Proof.
  destruct (unmarshal Sample.construct Sample.Field_unmarshal 0
              (heap_of [Sample.bare_doc])) as [[db|e] h'] eqn:E.
  - apply (unmarshal_binds_every_slot Sample.construct Sample.Field_unmarshal
             Sample.Field_marshal 0 (heap_of [Sample.bare_doc]) db h');
      [simpl; lia|exact E|].
    intros c args cfg _. eexists. reflexivity.
  - vm_compute in E. discriminate E.
Defined.

(** The two blackouts of the sample document come back in their order. *)
Lemma marshal_unmarshal_preserves_order_witness :
  match unmarshal Sample.construct Sample.Field_unmarshal 0
          (heap_of [Sample.good_doc]) with
  | (Ok db, h1) =>
      match marshal Sample.Field_marshal db h1 with
      | (Ok (PDict struct), _) =>
          exists out,
            Dict.get "merge-blackout" struct = Some (PList out) /\
            Forall2 (fun record emitted =>
                       exists entity,
                         decode_merge_blackout Sample.construct record = Ok entity /\
                         encode Sample.Field_marshal "merge-blackout" entity
                         = Ok emitted)
                    [Sample.all_day; Sample.duration] out
      | _ => False
      end
  | (Raise _, _) => False
  end.
Proof.
  destruct (unmarshal Sample.construct Sample.Field_unmarshal 0
              (heap_of [Sample.good_doc])) as [[db|e] h1] eqn:E;
    [|vm_compute in E; discriminate E].
  destruct (marshal_unmarshal_preserves_order
              Sample.construct Sample.Field_unmarshal Sample.Field_marshal
              0 (heap_of [Sample.good_doc]) db h1
              "merge-blackout" (decode_merge_blackout Sample.construct)
              (PList [Sample.all_day; Sample.duration]))
    as (Horder & Hreturns);
    [simpl; lia|exact E| |reflexivity|].
  { unfold slots. do 11 right. left. reflexivity. }
  destruct Hreturns as [struct Hm].
  { intros c args cfg _. eexists. reflexivity. }
  rewrite Hm.
  destruct (Horder struct h1 Hm) as (items & out & Hit & Hg & Hall).
  inversion Hit; subst items. exists out. split; assumption.
Defined.

(** The document with the unknown blackout tag: the call fails, with the
    slots before the blackouts rebound. *)
Lemma unmarshal_failure_leaves_converted_prefix_witness :
  match unmarshal Sample.construct Sample.Field_unmarshal 0
          (heap_of [Sample.bad_tag_doc]) with
  | (Raise e, h') =>
      exists done rest,
        slots Sample.construct Sample.Field_unmarshal = done ++ rest /\
        (forall key decode, In (key, decode) done ->
           exists olist,
             decode_slot decode key Sample.bad_tag_doc = Ok olist /\
             Dict.get key (cell h' 0) = Some (PList olist)) /\
        (forall key, ~ In key (map fst done) ->
           Dict.get key (cell h' 0) = Dict.get key Sample.bad_tag_doc)
  | (Ok _, _) => False
  end.
Proof.
  destruct (unmarshal Sample.construct Sample.Field_unmarshal 0
              (heap_of [Sample.bad_tag_doc])) as [[db|e] h'] eqn:E.
  - vm_compute in E. discriminate E.
  - destruct (unmarshal_failure_leaves_converted_prefix
                Sample.construct Sample.Field_unmarshal
                0 (heap_of [Sample.bad_tag_doc]) e h')
      as (done & rest & H1 & H2 & H3 & _); [simpl; lia|exact E|].
    exists done, rest. auto.
Defined.

(** Against C3 as it is worded: on the sample document with the unknown
    blackout tag the call fails and the caller's dictionary is no longer
    what it was (its fragment roots are entity objects by then). *)
Lemma unmarshal_failure_changes_input_counterexample :
  ~ (forall construct Field_unmarshal config h e h',
       config < next h ->
       unmarshal construct Field_unmarshal config h = (Raise e, h') ->
       cell h' config = cell h config).
Proof.
  intros H.
  destruct (unmarshal Sample.construct Sample.Field_unmarshal 0
              (heap_of [Sample.bad_tag_doc])) as [[db|e] h'] eqn:E.
  - vm_compute in E. discriminate E.
  - assert (Hlt : 0 < next (heap_of [Sample.bad_tag_doc])) by (simpl; lia).
    specialize (H _ _ _ _ _ _ Hlt E).
    vm_compute in E. inversion E; subst. vm_compute in H. discriminate H.
Qed.

(** The getters on the document with nothing but its name, before and
    after [unmarshal]. *)
Lemma slot_getters_after_unmarshal_not_None_witness :
  element_range_indexes Sample.db (heap_of [Sample.bare_doc])
  = (Ok PNone, heap_of [Sample.bare_doc]) /\
  match unmarshal Sample.construct Sample.Field_unmarshal 0
          (heap_of [Sample.bare_doc]) with
  | (Ok db, h') =>
      element_range_indexes db h' = (Ok (PList []), h') /\
      path_namespaces db h' = (Ok (PList []), h') /\
      fields Sample.field_name db h' = (Ok (PList []), h') /\
      element_word_query_throughs db h'
      = (Raise (KeyError "element-word-query_through"), h')
  | (Raise _, _) => False
  end.
Proof.
  destruct (slot_getters_after_unmarshal_not_None
              Sample.construct Sample.Field_unmarshal Sample.field_name)
    as (Habsent & _ & _ & _ & Hafter).
  split.
  - apply (Habsent "range-element-index"); [in_list|reflexivity].
  - destruct (unmarshal Sample.construct Sample.Field_unmarshal 0
                (heap_of [Sample.bare_doc])) as [[db|e] h'] eqn:E;
      [|vm_compute in E; discriminate E].
    destruct (Hafter 0 (heap_of [Sample.bare_doc]) db h')
      as (Hget & _ & Hfields & Hthrough); [simpl; lia|exact E|].
    split; [|split; [|split]].
    + destruct (Hget "range-element-index" element_range_indexes)
        as (olist & Hg & Hnil); [in_list|].
      rewrite Hg, (Hnil eq_refl). reflexivity.
    + destruct (Hget "path-namespace" path_namespaces)
        as (olist & Hg & Hnil); [in_list|].
      rewrite Hg, (Hnil eq_refl). reflexivity.
    + exact (Hfields eq_refl).
    + exact Hthrough.
Defined.

(** A root field and a path field, both named [title]. *)
Lemma duplicate_field_rejected_witness :
  match add_field Sample.field_name Sample.db Sample.title_root
          (heap_of [Sample.bare_doc]) with
  | (Ok self1, h1) =>
      add_field Sample.field_name self1 Sample.title_path h1
      = (Raise DuplicateKey, h1) /\
      exists items,
        Dict.get "field" (cell h1 (_config self1))
        = Some (PList (items ++ [Sample.title_root]))
  | (Raise _, _) => False
  end.
Proof.
  destruct (add_field Sample.field_name Sample.db Sample.title_root
              (heap_of [Sample.bare_doc])) as [[self1|e] h1] eqn:E.
  - apply (duplicate_field_rejected Sample.field_name Sample.db self1
             Sample.title_root PathField [PStr "title"; PList []] [] "title"
             (heap_of [Sample.bare_doc]) h1);
      [reflexivity|discriminate|reflexivity|reflexivity|exact E].
  - vm_compute in E. discriminate E.
Defined.

(** The two calls of [set_word_query] under either reading of
    [field_name]: with None for the word query the second value is
    appended, with the empty string the second call raises. *)
Example set_word_query_twice_appends :
  let wq1 := PObj WordQuery [PBool true] [] in
  let wq2 := PObj WordQuery [PBool false] [] in
  let run :=
    (db <~ Database_init "Documents" "$ML-LOCALHOST" ;;
     _ <~ set_word_query Sample.field_name db wq1 ;;
     set_word_query Sample.field_name db wq2) (heap_of []) in
  fst run = Ok tt /\
  Dict.get "field" (cell (snd run) 0) = Some (PList [wq1; wq2]).
Proof. split; reflexivity. Qed.

Example set_word_query_twice_raises :
  let wq1 := PObj WordQuery [PBool true] [] in
  let wq2 := PObj WordQuery [PBool false] [] in
  let run :=
    (db <~ Database_init "Documents" "$ML-LOCALHOST" ;;
     _ <~ set_word_query Sample.field_name_raw db wq1 ;;
     set_word_query Sample.field_name_raw db wq2) (heap_of []) in
  fst run = Raise (NameError "items") /\
  Dict.get "field" (cell (snd run) 0) = Some (PList [wq1]).
Proof. split; reflexivity. Qed.

(** ** Walking a directory *)

Lemma node_induction (P : Files.node -> Prop) :
  P Files.File ->
  P Files.Unreadable ->
  (forall entries,
     Forall (fun e => P (snd e)) entries -> P (Files.Directory entries)) ->
  forall n, P n.
Proof.
  intros Hf Hu Hd.
  refine (fix IH (n : Files.node) : P n :=
            match n with
            | Files.File => Hf
            | Files.Unreadable => Hu
            | Files.Directory entries =>
                Hd entries
                  ((fix go (es : list (string * Files.node))
                      : Forall (fun e => P (snd e)) es :=
                      match es with
                      | [] => Forall_nil _
                      | e :: rest =>
                          Forall_cons e
                            (match e as e0 return P (snd e0) with
                             | (_, child) => IH child
                             end)
                            (go rest)
                      end) entries)
            end).
Qed.

Lemma walk_cons pathname dir name child rest :
  Files.walk pathname dir (Files.Directory ((name, child) :: rest)) =
  match Files.walk (Files.join pathname name) name child with
  | None => None
  | Some found =>
      match Files.walk pathname dir (Files.Directory rest) with
      | None => None
      | Some more => Some (found ++ more)
      end
  end.
Proof. reflexivity. Qed.

Lemma files_cons name child rest :
  Files.files (Files.Directory ((name, child) :: rest)) =
  Files.files child + Files.files (Files.Directory rest).
Proof. reflexivity. Qed.

Lemma readable_cons name child rest :
  Files.readable (Files.Directory ((name, child) :: rest)) =
  Files.readable child && Files.readable (Files.Directory rest).
Proof. reflexivity. Qed.

Lemma plain_names_cons name child rest :
  Files.plain_names (Files.Directory ((name, child) :: rest)) =
  Files.plain_name name && Files.plain_names child &&
  Files.plain_names (Files.Directory rest).
Proof. reflexivity. Qed.

Lemma walk_counts n : forall pathname dir,
  if Files.readable n
  then exists found,
         Files.walk pathname dir n = Some found /\
         length found = Files.files n
  else Files.walk pathname dir n = None.
Proof.
  induction n as [| |entries IH] using node_induction; intros pathname dir.
  - simpl. eauto.
  - reflexivity.
  - induction IH as [|[name child] rest Hchild _ IHrest].
    + simpl. eauto.
    + rewrite readable_cons, walk_cons, files_cons.
      simpl in Hchild. specialize (Hchild (Files.join pathname name) name).
      destruct (Files.readable child).
      * destruct Hchild as (found & -> & Hlen).
        destruct (Files.readable (Files.Directory rest)); cbn [andb].
        -- destruct IHrest as (more & -> & Hmore).
           eexists. split; [reflexivity|].
           rewrite length_app. lia.
        -- now rewrite IHrest.
      * cbn [andb]. now rewrite Hchild.
Qed.

(** X22.  [walk_directories] lists every file below the directory, one entry
    each, when [os.stat] succeeds everywhere, and returns nothing when it
    fails on one name. *)
Theorem walk_directories_lists_every_file current_directory entries :
  if Files.readable (Files.Directory entries)
  then exists file_list,
         Files.walk_directories current_directory entries = Some file_list /\
         length file_list = Files.files (Files.Directory entries)
  else Files.walk_directories current_directory entries = None.
Proof. apply walk_counts. Qed.

Lemma append_assoc (a b c : string) : ((a ++ b) ++ c)%string = (a ++ (b ++ c))%string.
Proof. induction a as [|x a IH]; simpl; [reflexivity|now rewrite IH]. Qed.

Lemma plain_name_no_slash name :
  Files.plain_name name = true -> String.prefix "/" name = false.
Proof.
  unfold Files.plain_name. destruct name as [|c name]; [discriminate|].
  intros H. apply andb_true_iff in H as [_ H].
  unfold String.index in H. fold String.index in H.
  destruct (String.prefix "/" (String c name)); [discriminate H|reflexivity].
Qed.

Lemma join_plain parent name :
  Files.plain_name name = true ->
  exists sep, Files.join parent name = (parent ++ sep ++ name)%string.
Proof.
  intros H. unfold Files.join. rewrite (plain_name_no_slash _ H).
  destruct (String.eqb parent "") eqn:E.
  - apply String.eqb_eq in E. subst parent. exists "". reflexivity.
  - destruct (String.eqb _ "/").
    + exists "". reflexivity.
    + exists "/". reflexivity.
Qed.

Lemma walk_paths root n : forall parent dir found,
  (exists rest, parent = (root ++ rest)%string) ->
  Files.plain_name dir = true ->
  Files.plain_names n = true ->
  Files.walk (Files.join parent dir) dir n = Some found ->
  Forall (fun e =>
            exists name parent',
              e = Files.entry name (Files.join parent' name) /\
              Files.plain_name name = true /\
              exists rest, parent' = (root ++ rest)%string)
         found.
Proof.
  induction n as [| |entries IH] using node_induction;
    intros parent dir found Hroot Hdir Hplain Hwalk.
  - simpl in Hwalk. inversion Hwalk; subst. constructor; [|constructor].
    exists dir, parent. auto.
  - discriminate Hwalk.
  - assert (Hhere : exists rest, Files.join parent dir = (root ++ rest)%string).
    { destruct Hroot as [rest ->].
      destruct (join_plain (root ++ rest) dir Hdir) as [sep ->].
      exists (rest ++ sep ++ dir)%string. apply append_assoc. }
    revert found Hwalk Hplain.
    induction IH as [|[name child] rest Hchild _ IHrest];
      intros found Hwalk Hplain.
    + simpl in Hwalk. inversion Hwalk. constructor.
    + rewrite walk_cons in Hwalk. rewrite plain_names_cons in Hplain.
      apply andb_true_iff in Hplain as [Hplain Hrest].
      apply andb_true_iff in Hplain as [Hname Hc].
      destruct (Files.walk (Files.join (Files.join parent dir) name) name child)
        as [here|] eqn:Hw; [|discriminate Hwalk].
      destruct (Files.walk (Files.join parent dir) dir (Files.Directory rest))
        as [more|] eqn:Hm; [|discriminate Hwalk].
      inversion Hwalk; subst found. apply Forall_app. split.
      * simpl in Hchild. eapply Hchild; eauto.
      * apply IHrest; auto.
Qed.

(** X23.  Every entry of [walk_directories] gives under [filename] a name as
    the directory listing has it and under [partial-directory] that name
    joined to the path of its directory, a path that begins with the
    directory the walk started from. *)
Theorem walk_directories_paths current_directory entries file_list :
  Files.plain_names (Files.Directory entries) = true ->
  Files.walk_directories current_directory entries = Some file_list ->
  Forall (fun e =>
            exists name parent,
              e = Files.entry name (Files.join parent name) /\
              Files.plain_name name = true /\
              exists rest, parent = (current_directory ++ rest)%string)
         file_list.
Proof.
  unfold Files.walk_directories. revert file_list.
  induction entries as [|[name child] rest IH]; intros file_list Hplain Hwalk.
  - simpl in Hwalk. inversion Hwalk. constructor.
  - rewrite walk_cons in Hwalk. rewrite plain_names_cons in Hplain.
    apply andb_true_iff in Hplain as [Hplain Hrest].
    apply andb_true_iff in Hplain as [Hname Hc].
    destruct (Files.walk (Files.join current_directory name) name child)
      as [here|] eqn:Hw; [|discriminate Hwalk].
    destruct (Files.walk current_directory "" (Files.Directory rest))
      as [more|] eqn:Hm; [|discriminate Hwalk].
    inversion Hwalk; subst file_list. apply Forall_app. split.
    + apply (walk_paths current_directory child current_directory name here);
        auto.
      exists EmptyString. clear.
      induction current_directory as [|c s IHs]; simpl; [reflexivity|].
      now rewrite <- IHs.
    + apply IH; auto.
Qed.

(** X24.  The list follows the order of the directory listing: what the names
    of a listing give is what its first part gives followed by what the
    rest gives, a subdirectory standing for its own walk under the joined
    path and a file for its one entry; a failure in either part is a
    failure of the whole. *)
Theorem walk_directories_in_listing_order current_directory first rest :
  Files.walk_directories current_directory (first ++ rest) =
  match Files.walk_directories current_directory first,
        Files.walk_directories current_directory rest with
  | Some found, Some more => Some (found ++ more)
  | _, _ => None
  end /\
  (forall name entries,
     Files.walk_directories current_directory [(name, Files.Directory entries)]
     = Files.walk_directories (Files.join current_directory name) entries) /\
  (forall name,
     Files.walk_directories current_directory [(name, Files.File)]
     = Some [Files.entry name (Files.join current_directory name)]).
Proof.
  unfold Files.walk_directories. split; [|split].
  - induction first as [|[name child] first IH].
    + simpl app. change (Files.walk current_directory "" (Files.Directory []))
        with (Some (@nil pyval)).
      destruct (Files.walk current_directory "" (Files.Directory rest));
        reflexivity.
    + change (((name, child) :: first) ++ rest)
        with ((name, child) :: (first ++ rest)).
      rewrite !walk_cons, IH.
      destruct (Files.walk (Files.join current_directory name) name child)
        as [here|]; [|reflexivity].
      destruct (Files.walk current_directory "" (Files.Directory first))
        as [found|]; [|reflexivity].
      destruct (Files.walk current_directory "" (Files.Directory rest))
        as [more|]; [|reflexivity].
      now rewrite app_assoc.
  - intros name entries. rewrite walk_cons.
    change (Files.walk (Files.join current_directory name) name
              (Files.Directory entries))
      with (Files.walk (Files.join current_directory name) ""
              (Files.Directory entries)).
    destruct (Files.walk (Files.join current_directory name) ""
                (Files.Directory entries)); [|reflexivity].
    change (Files.walk current_directory "" (Files.Directory []))
      with (Some (@nil pyval)).
    cbv beta iota. now rewrite app_nil_r.
  - intros name. reflexivity.
Qed.

(** ** The further statements on the sample inputs *)

(** A document with one option and no name. *)
Lemma unmarshal_without_name_witness :
  exists h',
    unmarshal Sample.construct Sample.Field_unmarshal 0
      (heap_of [Sample.nameless_doc])
    = (Raise (KeyError "database-name"), h') /\
    forall r, r < next (heap_of [Sample.nameless_doc]) ->
              cell h' r = cell (heap_of [Sample.nameless_doc]) r.
Proof.
  apply (unmarshal_without_name Sample.construct Sample.Field_unmarshal 0
           (heap_of [Sample.nameless_doc])); [simpl; lia|reflexivity].
Defined.

(** The sample document keeps its name and its [enabled] option. *)
Lemma unmarshal_keeps_options_witness :
  match unmarshal Sample.construct Sample.Field_unmarshal 0
          (heap_of [Sample.good_doc]) with
  | (Ok db, h') =>
      name db = PStr "Documents" /\
      Dict.get "enabled" (cell h' 0) = Some (PBool true)
  | (Raise _, _) => False
  end.
Proof.
  destruct (unmarshal Sample.construct Sample.Field_unmarshal 0
              (heap_of [Sample.good_doc])) as [[db|e] h'] eqn:E;
    [|vm_compute in E; discriminate E].
  destruct (unmarshal_keeps_options Sample.construct Sample.Field_unmarshal
              0 (heap_of [Sample.good_doc]) db h')
    as (Hn & _ & Hk & _); [simpl; lia|exact E|].
  split.
  - simpl in Hn. now inversion Hn.
  - rewrite Hk; [reflexivity|not_in_list].
Defined.

(** The keys of the sample document after [unmarshal]. *)
Lemma unmarshal_appends_missing_slots_witness :
  match unmarshal Sample.construct Sample.Field_unmarshal 0
          (heap_of [Sample.good_doc]) with
  | (Ok db, h') =>
      Dict.keys (cell h' 0) =
      Dict.keys Sample.good_doc ++
      filter (fun k => negb (Dict.mem k Sample.good_doc)) slot_keys
  | (Raise _, _) => False
  end.
Proof.
  destruct (unmarshal Sample.construct Sample.Field_unmarshal 0
              (heap_of [Sample.good_doc])) as [[db|e] h'] eqn:E;
    [|vm_compute in E; discriminate E].
  apply (unmarshal_appends_missing_slots Sample.construct
           Sample.Field_unmarshal 0 (heap_of [Sample.good_doc]) db h');
    [simpl; lia|exact E].
Defined.

(** A string where a blackout record is expected. *)
Lemma slot_records_must_be_dicts_witness :
  decode_merge_blackout Sample.construct (PStr "recurring") = Raise TypeError.
Proof.
  apply (slot_records_must_be_dicts Sample.construct Sample.Field_unmarshal
           "merge-blackout" (decode_merge_blackout Sample.construct)
           (PStr "recurring")).
  - unfold slots. do 11 right. left. reflexivity.
  - intros d H. discriminate H.
Defined.

(** [unmarshal] a second time on the sample document. *)
Lemma unmarshal_twice_raises_witness :
  match unmarshal Sample.construct Sample.Field_unmarshal 0
          (heap_of [Sample.good_doc]) with
  | (Ok db, h1) =>
      exists h2,
        unmarshal Sample.construct Sample.Field_unmarshal 0 h1
        = (Raise TypeError, h2)
  | (Raise _, _) => False
  end.
Proof.
  destruct (unmarshal Sample.construct Sample.Field_unmarshal 0
              (heap_of [Sample.good_doc])) as [[db|e] h1] eqn:E;
    [|vm_compute in E; discriminate E].
  pose proof E as E'. vm_compute in E. inversion E; subst db h1. clear E.
  eapply (unmarshal_twice_raises Sample.construct Sample.Field_unmarshal
            0 (heap_of [Sample.good_doc]) _ _ "fragment-root");
    [simpl; lia|exact E'|in_list|reflexivity|discriminate].
Defined.

(** A fragment root without its local name. *)
Lemma record_decoder_required_fields_witness :
  decode_fragment_root Sample.construct
    (PDict [("namespace-uri", PStr "http://example.com/")])
  = Raise (KeyError "localname").
Proof.
  refine (proj2 (record_decoder_required_fields Sample.construct
                   Sample.Field_unmarshal "fragment-root"
                   (FragmentRoot, ["namespace-uri"; "localname"], false)
                   [("namespace-uri", PStr "http://example.com/")] _)).
  unfold record_shapes. in_list.
Defined.

(** The blackouts of the sample document are blackouts. *)
Lemma unmarshal_slots_are_typed_witness :
  match unmarshal Sample.construct Sample.Field_unmarshal 0
          (heap_of [Sample.good_doc]) with
  | (Ok db, h') =>
      exists olist,
        Dict.get "merge-blackout" (cell h' 0) = Some (PList olist) /\
        length olist = 2 /\
        Forall (fun e => exists c,
                  class_of e = Some c /\ In c (slot_classes "merge-blackout"))
               olist
  | (Raise _, _) => False
  end.
Proof.
  destruct (unmarshal Sample.construct Sample.Field_unmarshal 0
              (heap_of [Sample.good_doc])) as [[db|e] h'] eqn:E;
    [|vm_compute in E; discriminate E].
  pose proof E as E'. vm_compute in E. inversion E; subst db h'. clear E.
  eexists. split; [reflexivity|]. split; [reflexivity|].
  eapply (unmarshal_slots_are_typed Sample.construct Sample.Field_unmarshal
            0 (heap_of [Sample.good_doc]) _ _ "merge-blackout");
    [simpl; lia|exact E'|in_list|reflexivity].
Defined.

(** The daily backup with the identifier 1234. *)
Lemma decoded_backup_keeps_id_witness :
  match decode_database_backup Sample.construct (PDict Sample.daily_backup) with
  | Ok e =>
      class_of e = Some ScheduledDatabaseBackup_daily /\
      exists emitted,
        encode Sample.Field_marshal "database-backup" e = Ok (PDict emitted) /\
        Dict.get "backup-id" emitted = Some (PStr "1234")
  | Raise _ => False
  end.
Proof.
  destruct (decode_database_backup Sample.construct (PDict Sample.daily_backup))
    as [e|x] eqn:E; [|vm_compute in E; discriminate E].
  destruct (decoded_backup_keeps_id Sample.construct Sample.Field_marshal
              _ _ E)
    as (d & tag & id & c & ks & emitted & Hb & Ht & Hk & Hc & Hid & He & Hg).
  inversion Hb; subst d. vm_compute in Ht. inversion Ht; subst tag.
  vm_compute in Hk. inversion Hk; subst c ks.
  vm_compute in Hid. inversion Hid; subst id.
  split; [exact Hc|]. exists emitted. split; assumption.
Defined.

(** The one-time blackout with both keys is a start-end blackout. *)
Lemma once_blackout_resolution_witness :
  decode_merge_blackout Sample.construct Sample.once_both =
  new Sample.construct MergeBlackout_oneTimeStartEnd
    [PStr "normal"; PInt 2; PStr "2015-03-01"; PStr "08:00:00";
     PStr "2015-03-02"; PStr "09:00:00"].
Proof.
  destruct (once_blackout_resolution Sample.construct Sample.once_both
              _ eq_refl eq_refl) as [H _].
  rewrite (H eq_refl). reflexivity.
Defined.

(** [marshal] of a configuration with nothing but the name. *)
Lemma marshal_copies_options_witness :
  match marshal Sample.Field_marshal Sample.db (heap_of [Sample.bare_doc]) with
  | (Ok v, h') =>
      h' = heap_of [Sample.bare_doc] /\
      exists struct,
        v = PDict struct /\
        Dict.keys struct = ["database-name"] /\
        Dict.get "database-name" struct = Some (PStr "Documents")
  | (Raise _, _) => False
  end.
Proof.
  destruct (marshal Sample.Field_marshal Sample.db (heap_of [Sample.bare_doc]))
    as [[v|e] h'] eqn:E; [|vm_compute in E; discriminate E].
  destruct (marshal_copies_options Sample.Field_marshal Sample.db
              (heap_of [Sample.bare_doc]) v h' E)
    as (Hh & struct & Hv & Hkeys & Hget).
  { simpl. constructor; [intros []|constructor]. }
  split; [exact Hh|]. exists struct. split; [exact Hv|]. split; [exact Hkeys|].
  rewrite Hget; [reflexivity|not_in_list].
Defined.

(** The [enabled] option of the sample document comes back. *)
Lemma marshal_unmarshal_keeps_options_witness :
  match unmarshal Sample.construct Sample.Field_unmarshal 0
          (heap_of [Sample.good_doc]) with
  | (Ok db, h1) =>
      match marshal Sample.Field_marshal db h1 with
      | (Ok (PDict struct), _) =>
          Dict.get "enabled" struct = Some (PBool true)
      | _ => False
      end
  | (Raise _, _) => False
  end.
Proof.
  destruct (unmarshal Sample.construct Sample.Field_unmarshal 0
              (heap_of [Sample.good_doc])) as [[db|e] h1] eqn:E;
    [|vm_compute in E; discriminate E].
  destruct (marshal Sample.Field_marshal db h1) as [[v|e] h2] eqn:Em.
  - destruct v as [| | | | |struct|];
      try (vm_compute in E; inversion E; subst;
           vm_compute in Em; discriminate Em).
    rewrite (marshal_unmarshal_keeps_options
               Sample.construct Sample.Field_unmarshal Sample.Field_marshal
               0 (heap_of [Sample.good_doc]) db h1 struct h2 "enabled");
      [reflexivity|simpl; lia|exact E|exact Em|not_in_list].
  - vm_compute in E. inversion E; subst. vm_compute in Em. discriminate Em.
Defined.

(** The field slot with the word query and the field named [title]. *)
Lemma fields_and_word_query_witness :
  word_query Sample.construct Sample.field_name Sample.db
    (heap_of [Sample.fields_config])
  = (Ok Sample.word_query_object, heap_of [Sample.fields_config]) /\
  ~ In Sample.word_query_object [Sample.title_root].
Proof.
  destruct (fields_and_word_query Sample.construct Sample.field_name
              Sample.db (heap_of [Sample.fields_config])
              [Sample.word_query_object; Sample.title_root]
              [Sample.title_root] eq_refl eq_refl) as [_ H].
  simpl in H. destruct H as (Hw & _ & Hnot). split; assumption.
Defined.

(** With the stored name of the word query being the empty string the
    call raises and the heap is the one it started from. *)
Lemma set_word_query_appends_or_raises_witness :
  match set_word_query Sample.field_name_raw Sample.db
          (PObj WordQuery [PBool true] [])
          (heap_of [Sample.fields_config]) with
  | (Raise _, h') => h' = heap_of [Sample.fields_config]
  | (Ok _, _) => False
  end.
Proof.
  destruct (set_word_query Sample.field_name_raw Sample.db
              (PObj WordQuery [PBool true] [])
              (heap_of [Sample.fields_config])) as [[u|e] h'] eqn:E.
  - vm_compute in E. discriminate E.
  - exact (set_word_query_appends_or_raises Sample.field_name_raw Sample.db
             _ _ _ _ E).
Defined.

(** A list of one path namespace. *)
Lemma checked_setter_all_or_nothing_witness :
  match set_path_namespaces Sample.db (PList [Sample.namespace])
          (heap_of [Sample.bare_doc]) with
  | (Ok _, h') =>
      path_namespaces Sample.db h' = (Ok (PList [Sample.namespace]), h')
  | (Raise _, _) => False
  end.
Proof.
  destruct (set_path_namespaces Sample.db (PList [Sample.namespace])
              (heap_of [Sample.bare_doc])) as [[u|e] h'] eqn:E;
    [|vm_compute in E; discriminate E].
  destruct (checked_setter_all_or_nothing PathNamespace set_path_namespaces
              path_namespaces Sample.db (PList [Sample.namespace])
              (heap_of [Sample.bare_doc]) (Ok u) h')
    as (l & Hg & _ & Hl); [in_list|exact E|].
  simpl in Hl. inversion Hl; subst l. exact Hg.
Defined.

(** A list of one query through is stored and not found again. *)
Lemma word_query_throughs_setter_and_getter_disagree_witness :
  exists h',
    set_element_word_query_throughs Sample.db (PList [Sample.through])
      (heap_of [Sample.bare_doc]) = (Ok tt, h') /\
    element_word_query_throughs Sample.db h' = (Ok PNone, h').
Proof.
  destruct (word_query_throughs_setter_and_getter_disagree Sample.db
              (heap_of [Sample.bare_doc]) eq_refl) as [H _].
  exact (H [Sample.through] eq_refl).
Defined.

(** The database name is stored and read back. *)
Lemma stored_option_round_trip_witness :
  exists h',
    set_database_name Sample.db (PStr "Archive") (heap_of [Sample.bare_doc])
    = (Ok Sample.db, h') /\
    database_name Sample.db h' = (Ok (PStr "Archive"), h').
Proof.
  destruct (stored_option_round_trip "database-name" set_database_name
              database_name Sample.db (PStr "Archive")
              (heap_of [Sample.bare_doc])) as (h' & Hs & Hg & _);
    [in_list|].
  exists h'. split; assumption.
Defined.

(** The recurring blackout with an empty period. *)
Lemma shapeless_period_unparseable_witness :
  decode_merge_blackout Sample.construct Sample.shapeless =
  Raise (UnexpectedManagementAPIResponse "Unparseable merge blackout period").
Proof.
  apply (shapeless_period_unparseable Sample.construct Sample.shapeless
           "recurring" []); [left|..]; reflexivity.
Defined.

(** The backup tagged [yearly]. *)
Lemma unknown_backup_type_unparseable_witness :
  decode_database_backup Sample.construct (PDict Sample.yearly_backup) =
  Raise (UnexpectedManagementAPIResponse "Unparseable backup").
Proof.
  apply (unknown_backup_type_unparseable Sample.construct Sample.yearly_backup
           (PStr "yearly")); reflexivity.
Defined.

(** The document with the blackout tagged [weekly] is refused. *)
Lemma unmarshal_fails_on_rejected_record_witness :
  exists e h',
    unmarshal Sample.construct Sample.Field_unmarshal 0
      (heap_of [Sample.bad_tag_doc]) = (Raise e, h').
Proof.
  apply (unmarshal_fails_on_rejected_record Sample.construct
           Sample.Field_unmarshal 0 (heap_of [Sample.bad_tag_doc])
           "merge-blackout" (decode_merge_blackout Sample.construct)
           (PList [Sample.weekly_blackout]) [Sample.weekly_blackout]
           (UnexpectedManagementAPIResponse "Unparseable merge blackout period"));
    [simpl; lia| |reflexivity|reflexivity|reflexivity].
  unfold slots. do 11 right. left. reflexivity.
Defined.

(** The sample directory below [/data]: three files, each path beginning
    with [/data]. *)
Lemma walk_directories_paths_witness :
  match Files.walk_directories "/data" Files.sample with
  | Some file_list =>
      length file_list = 3 /\
      Forall (fun e =>
                exists name parent,
                  e = Files.entry name (Files.join parent name) /\
                  Files.plain_name name = true /\
                  exists rest, parent = ("/data" ++ rest)%string)
             file_list
  | None => False
  end.
Proof.
  destruct (Files.walk_directories "/data" Files.sample) as [l|] eqn:E;
    [|vm_compute in E; discriminate E].
  split.
  - vm_compute in E. inversion E. reflexivity.
  - exact (walk_directories_paths "/data" Files.sample l eq_refl E).
Defined.

(** The sample document has [enabled] and no language. *)
Lemma option_getters_after_unmarshal_witness :
  match unmarshal Sample.construct Sample.Field_unmarshal 0
          (heap_of [Sample.good_doc]) with
  | (Ok db, h') =>
      enabled db h' = (Ok (PBool true), h') /\
      language db h' = (Ok PNone, h')
  | (Raise _, _) => False
  end.
Proof.
  destruct (unmarshal Sample.construct Sample.Field_unmarshal 0
              (heap_of [Sample.good_doc])) as [[db|e] h'] eqn:E;
    [|vm_compute in E; discriminate E].
  split.
  - apply (option_getters_after_unmarshal Sample.construct
             Sample.Field_unmarshal 0 (heap_of [Sample.good_doc]) db h'
             "enabled" enabled); [simpl; lia|exact E|in_list].
  - apply (option_getters_after_unmarshal Sample.construct
             Sample.Field_unmarshal 0 (heap_of [Sample.good_doc]) db h'
             "language" language); [simpl; lia|exact E|in_list].
Defined.
